(** * Stochastic solvers for entropic optimal transport (ot/stochastic.py)

    A shallow embedding of the module [ot.stochastic] and the properties of
    its specification.  Floating-point numbers are read as exact reals
    ([R] of the standard library), one-dimensional arrays as lists of reals
    and two-dimensional arrays as a shape together with an indexing
    function.  Exceptions raised by numpy ([IndexError], [ValueError]) are
    results of the functions; the process-wide random generator and the
    standard output are threaded as an explicit world. *)

From Stdlib Require Import String Ascii Bool Arith Reals Lra Lia List Permutation.
Import ListNotations.
Open Scope R_scope.

(* ===================================================================== *)
(** ** Exceptions and pure numpy operations *)
(* ===================================================================== *)

Inductive exn : Type := IndexError | ValueError.

Inductive res (A : Type) : Type :=
| Ok (a : A)
| Raise (e : exn).
Arguments Ok {A} a.
Arguments Raise {A} e.

Definition rbind {A B : Type} (c : res A) (k : A -> res B) : res B :=
  match c with
  | Ok a => k a
  | Raise e => Raise e
  end.

Declare Scope res_scope.
Delimit Scope res_scope with res.
Notation "x <- c ;; k" := (rbind c (fun x => k))
  (at level 61, c at next level, right associativity) : res_scope.

(** A one-dimensional [np.ndarray] of floats. *)
Definition array : Type := list R.

(** A two-dimensional [np.ndarray]: [np.shape(M)] is [(shape0, shape1)] and
    [item M i j] is [M[i, j]] for [i < shape0], [j < shape1]. *)
Record ndarray2 : Type := mk_ndarray2 {
  shape0 : nat;
  shape1 : nat;
  item : nat -> nat -> R
}.

(** The array written as nested lists, [np.array(rows)] with [nc] columns. *)
Definition of_rows (nc : nat) (rows : list (list R)) : ndarray2 :=
  {| shape0 := length rows; shape1 := nc;
     item := fun i j => nth j (nth i rows []) 0 |}.

Fixpoint map2 (f : R -> R -> R) (x y : list R) : list R :=
  match x, y with
  | u :: x', v :: y' => f u v :: map2 f x' y'
  | _, _ => []
  end.

(** [np.zeros(n)] and [np.zeros((n, m))]. *)
Definition np_zeros (n : nat) : array := repeat 0 n.
Definition np_zeros2 (n m : nat) : ndarray2 :=
  {| shape0 := n; shape1 := m; item := fun _ _ => 0 |}.

(** [np.sum(v)]. *)
Definition np_sum (v : array) : R := fold_right Rplus 0 v.

(** Broadcasting of one-dimensional shapes: equal lengths, or one of them 1. *)
Definition broadcast_len (m n : nat) : res nat :=
  if (m =? n)%nat then Ok m
  else if (m =? 1)%nat then Ok n
  else if (n =? 1)%nat then Ok m
  else Raise ValueError.

Definition broadcast_to (n : nat) (v : array) : res array :=
  if (length v =? n)%nat then Ok v
  else match v with
       | [x] => Ok (repeat x n)
       | _ => Raise ValueError
       end.

(** [x op y] on arrays, and the in-place [x op= y], whose result keeps the
    shape of [x]. *)
Definition np_binop (f : R -> R -> R) (x y : array) : res array :=
  (n <- broadcast_len (length x) (length y) ;;
   x' <- broadcast_to n x ;;
   y' <- broadcast_to n y ;;
   Ok (map2 f x' y'))%res.

Definition np_iop (f : R -> R -> R) (x y : array) : res array :=
  (y' <- broadcast_to (length x) y ;;
   Ok (map2 f x y'))%res.

Definition np_sub : array -> array -> res array := np_binop Rminus.
Definition np_add : array -> array -> res array := np_binop Rplus.
Definition np_mul : array -> array -> res array := np_binop Rmult.
Definition np_iadd : array -> array -> res array := np_iop Rplus.
Definition np_isub : array -> array -> res array := np_iop Rminus.

(** Operations with a scalar, and [np.exp]. *)
Definition np_neg (x : array) : array := map Ropp x.
Definition np_divs (x : array) (c : R) : array := map (fun u => u / c) x.
Definition np_muls (c : R) (x : array) : array := map (fun u => c * u) x.
Definition np_adds (x : array) (c : R) : array := map (fun u => u + c) x.
Definition np_subs (x : array) (c : R) : array := map (fun u => u - c) x.
Definition np_exp (x : array) : array := map exp x.

(** [v[i]] and [M[i, :]] for a non-negative index. *)
Definition getitem (v : array) (i : nat) : res R :=
  match nth_error v i with
  | Some x => Ok x
  | None => Raise IndexError
  end.

Definition getrow (M : ndarray2) (i : nat) : res array :=
  if (i <? shape0 M)%nat then Ok (map (item M i) (seq 0 (shape1 M)))
  else Raise IndexError.

(* ===================================================================== *)
(** ** Semi-dual problem: the coordinate gradient *)
(* ===================================================================== *)

(** [coordinate_grad_semi_dual(b, M, reg, beta, i)], lines 81-84. *)
Definition coordinate_grad_semi_dual
    (b : array) (M : ndarray2) (reg : R) (beta : array) (i : nat) : res array :=
  (row <- getrow M i ;;
   r <- np_sub row beta ;;
   exp_beta <- np_mul (np_exp (np_divs (np_neg r) reg)) b ;;
   let khi := np_divs exp_beta (np_sum exp_beta) in
   np_sub b khi)%res.

(** The Gibbs weights of row [i] written entry by entry:
    [exp(-(M[i,j] - beta[j]) / reg) * b[j]] for [j < nt]. *)
Definition gibbs_weights
    (b : array) (M : ndarray2) (reg : R) (beta : array) (i nt : nat) : array :=
  map (fun j => exp (- (item M i j - nth j beta 0) / reg) * nth j b 0)
      (seq 0 nt).

(** The weights divided by their sum. *)
Definition khi_of (g : array) : array := map (fun x => x / np_sum g) g.

(* ===================================================================== *)
(** ** More numpy: reductions, item assignment, fancy indexing, 2-D arrays *)
(* ===================================================================== *)

(** Python's builtin [max] over an array, and [np.min]: both raise
    [ValueError] on an empty argument. *)
Definition py_max (v : array) : res R :=
  match v with
  | [] => Raise ValueError
  | x :: t => Ok (fold_left Rmax t x)
  end.

Definition np_min (v : array) : res R :=
  match v with
  | [] => Raise ValueError
  | x :: t => Ok (fold_left Rmin t x)
  end.

(** [v[i] = x]. *)
Fixpoint list_set (v : array) (i : nat) (x : R) : array :=
  match v, i with
  | [], _ => []
  | _ :: t, O => x :: t
  | u :: t, S i' => u :: list_set t i' x
  end.

Definition setitem (v : array) (i : nat) (x : R) : res array :=
  if (i <? length v)%nat then Ok (list_set v i x) else Raise IndexError.

(** [A[i] = v] for a row of a 2-D array: the value is broadcast to the row. *)
Definition setrow (A : ndarray2) (i : nat) (v : array) : res ndarray2 :=
  if (i <? shape0 A)%nat then
    (v' <- broadcast_to (shape1 A) v ;;
     Ok {| shape0 := shape0 A; shape1 := shape1 A;
           item := fun r c => if (r =? i)%nat then nth c v' 0 else item A r c |})%res
  else Raise IndexError.

(** [np.sum(A, axis=0)]: the sum of the rows, column by column. *)
Definition np_sum_axis0 (A : ndarray2) : array :=
  map (fun c => np_sum (map (fun r => item A r c) (seq 0 (shape0 A))))
      (seq 0 (shape1 A)).

(** Fancy indexing [v[idx]], [M[idx, j]] and [M[i, idx]]. *)
Fixpoint take (v : array) (idx : list nat) : res array :=
  match idx with
  | [] => Ok []
  | i :: rest =>
      (x <- getitem v i ;;
       xs <- take v rest ;;
       Ok (x :: xs))%res
  end.

Definition getitem2 (M : ndarray2) (i j : nat) : res R :=
  if ((i <? shape0 M) && (j <? shape1 M))%nat then Ok (item M i j)
  else Raise IndexError.

Fixpoint take_col (M : ndarray2) (idx : list nat) (j : nat) : res array :=
  match idx with
  | [] => if (j <? shape1 M)%nat then Ok [] else Raise IndexError
  | i :: rest =>
      (x <- getitem2 M i j ;;
       xs <- take_col M rest j ;;
       Ok (x :: xs))%res
  end.

Fixpoint take_row (M : ndarray2) (i : nat) (idx : list nat) : res array :=
  match idx with
  | [] => if (i <? shape0 M)%nat then Ok [] else Raise IndexError
  | j :: rest =>
      (x <- getitem2 M i j ;;
       xs <- take_row M i rest ;;
       Ok (x :: xs))%res
  end.

(** [v[idx] = vals], entry after entry (a later duplicate index wins), and
    [v[idx] += w], which is [tmp = v[idx]; tmp += w; v[idx] = tmp]. *)
Fixpoint put (v : array) (idx : list nat) (vals : array) : res array :=
  match idx, vals with
  | i :: rest, x :: xs =>
      (v' <- setitem v i x ;;
       put v' rest xs)%res
  | _, _ => Ok v
  end.

Definition iadd_at (v : array) (idx : list nat) (w : array) : res array :=
  (tmp <- take v idx ;;
   tmp' <- np_iadd tmp w ;;
   put v idx tmp')%res.

(** [v[:, None]] and [v[None, :]]. *)
Definition as_column (v : array) : ndarray2 :=
  {| shape0 := length v; shape1 := 1; item := fun i _ => nth i v 0 |}.
Definition as_row (v : array) : ndarray2 :=
  {| shape0 := 1; shape1 := length v; item := fun _ j => nth j v 0 |}.

(** Binary operations on 2-D arrays, with numpy's broadcasting on each axis. *)
Definition np_binop2 (f : R -> R -> R) (A B : ndarray2) : res ndarray2 :=
  (n0 <- broadcast_len (shape0 A) (shape0 B) ;;
   n1 <- broadcast_len (shape1 A) (shape1 B) ;;
   Ok {| shape0 := n0; shape1 := n1;
         item := fun i j =>
           f (item A (if (shape0 A =? 1)%nat then 0%nat else i)
                     (if (shape1 A =? 1)%nat then 0%nat else j))
             (item B (if (shape0 B =? 1)%nat then 0%nat else i)
                     (if (shape1 B =? 1)%nat then 0%nat else j)) |})%res.

Definition np_map2d (f : R -> R) (A : ndarray2) : ndarray2 :=
  {| shape0 := shape0 A; shape1 := shape1 A; item := fun i j => f (item A i j) |}.

(** Loops of the pure part: [for i in range(n)] and [for x in l]. *)
Fixpoint rfor_range {S : Type} (body : nat -> S -> res S) (lo count : nat) (s : S)
  : res S :=
  match count with
  | O => Ok s
  | Datatypes.S c => (s' <- body lo s ;; rfor_range body (Datatypes.S lo) c s')%res
  end.

Fixpoint rfor_each {S : Type} (body : nat -> S -> res S) (l : list nat) (s : S)
  : res S :=
  match l with
  | [] => Ok s
  | x :: rest => (s' <- body x s ;; rfor_each body rest s')%res
  end.

(* ===================================================================== *)
(** ** The world: numpy's global random generator and the standard output *)
(* ===================================================================== *)

(** numpy's generator is outside the module: it is taken as any state with
    the three draws the module uses, which obey the ranges numpy documents:
    [randint(n)] lies in [0, n), [choice(n, k, replace=False)] gives [k]
    distinct indices below [n], and [randn(n)] gives [n] numbers. *)
Record RandomState : Type := mk_RandomState {
  rng_state : Type;
  randint : nat -> rng_state -> nat * rng_state;
  choice : nat -> nat -> rng_state -> list nat * rng_state;
  randn : nat -> rng_state -> array * rng_state;
  randint_lt : forall n g, (0 < n)%nat -> (fst (randint n g) < n)%nat;
  choice_length : forall n k g, (k <= n)%nat -> length (fst (choice n k g)) = k;
  choice_lt : forall n k g, (k <= n)%nat ->
    Forall (fun i => (i < n)%nat) (fst (choice n k g));
  choice_NoDup : forall n k g, (k <= n)%nat -> NoDup (fst (choice n k g));
  randn_length : forall n g, length (fst (randn n g)) = n
}.

Record world (G : RandomState) : Type := mk_world {
  gen : rng_state G;
  stdout : list string
}.
Arguments mk_world {G} gen stdout.
Arguments gen {G} w.
Arguments stdout {G} w.

(** Computations of the module: they read and advance the world and either
    return a value or raise. *)
Definition Py (G : RandomState) (A : Type) : Type := world G -> res A * world G.

Definition ret {G : RandomState} {A : Type} (a : A) : Py G A := fun w => (Ok a, w).

Definition bind {G : RandomState} {A B : Type} (c : Py G A) (k : A -> Py G B)
  : Py G B :=
  fun w => match c w with
           | (Ok a, w') => k a w'
           | (Raise e, w') => (Raise e, w')
           end.

Definition lift {G : RandomState} {A : Type} (c : res A) : Py G A := fun w => (c, w).

Declare Scope py_scope.
Delimit Scope py_scope with py.
Notation "x <- c ;; k" := (bind c (fun x => k))
  (at level 61, c at next level, right associativity) : py_scope.
Notation "' ( x , y ) <- c ;; k" := (bind c (fun xy => let '(x, y) := xy in k))
  (at level 61, x name, y name, c at next level, right associativity) : py_scope.

(** [np.random.randint(n)], [np.random.choice(n, size, replace=False)] and
    [np.random.randn(n)] on the global generator. *)
Definition np_random_randint {G : RandomState} (n : nat) : Py G nat :=
  fun w =>
    if (n =? 0)%nat then (Raise ValueError, w)
    else let (i, g') := randint G n (gen w) in (Ok i, mk_world g' (stdout w)).

Definition np_random_choice {G : RandomState} (n size : nat) : Py G (list nat) :=
  fun w =>
    if ((n =? 0) || (n <? size))%nat then (Raise ValueError, w)
    else let (l, g') := choice G n size (gen w) in (Ok l, mk_world g' (stdout w)).

Definition np_random_randn {G : RandomState} (n : nat) : Py G array :=
  fun w => let (v, g') := randn G n (gen w) in (Ok v, mk_world g' (stdout w)).

(** [print(msg)]. *)
Definition print {G : RandomState} (msg : string) : Py G unit :=
  fun w => (Ok tt, mk_world (gen w) (stdout w ++ [msg])).

(** [for cur_iter in range(count)], starting at [lo]. *)
Fixpoint for_range {G : RandomState} {S : Type} (body : nat -> S -> Py G S)
    (lo count : nat) (s : S) : Py G S :=
  match count with
  | O => ret s
  | Datatypes.S c => (s' <- body lo s ;; for_range body (Datatypes.S lo) c s')%py
  end.

(* ===================================================================== *)
(** ** Semi-dual solvers: SAG and ASGD *)
(* ===================================================================== *)

(** The default learning rate [1. / max(a / reg)], lines 157-158, 243-244. *)
Definition default_lr (a : array) (reg : R) (lr : option R) : res R :=
  match lr with
  | Some x => Ok x
  | None => (m <- py_max (np_divs a reg) ;; Ok (1 / m))%res
  end.

Record sag_state : Type := mk_sag_state {
  sag_cur_beta : array;
  stored_gradient : ndarray2;
  sum_stored_gradient : array
}.

(** One turn of the loop of [sag_entropic_transport], lines 165-170. *)
Definition sag_body {G : RandomState}
    (a b : array) (M : ndarray2) (reg lr : R) (n_source : nat)
    (_ : nat) (st : sag_state) : Py G sag_state :=
  (i <- np_random_randint n_source ;;
   ai <- lift (getitem a i) ;;
   g <- lift (coordinate_grad_semi_dual b M reg (sag_cur_beta st) i) ;;
   let cur_coord_grad := np_muls ai g in
   old <- lift (getrow (stored_gradient st) i) ;;
   delta <- lift (np_sub cur_coord_grad old) ;;
   sum' <- lift (np_iadd (sum_stored_gradient st) delta) ;;
   stored' <- lift (setrow (stored_gradient st) i cur_coord_grad) ;;
   beta' <- lift (np_iadd (sag_cur_beta st)
                          (np_muls (lr * (1 / INR n_source)) sum')) ;;
   ret (mk_sag_state beta' stored' sum'))%py.

(** The state of SAG before the loop, and after [count] turns. *)
Definition sag_init (M : ndarray2) : sag_state :=
  let n_source := shape0 M in
  let n_target := shape1 M in
  mk_sag_state (np_zeros n_target) (np_zeros2 n_source n_target) (np_zeros n_target).

Definition sag_loop {G : RandomState}
    (a b : array) (M : ndarray2) (reg lr : R) (count : nat) : Py G sag_state :=
  for_range (sag_body a b M reg lr (shape0 M)) 0 count (sag_init M).

(** [sag_entropic_transport(a, b, M, reg, numItermax, lr)], lines 157-171. *)
Definition sag_entropic_transport {G : RandomState}
    (a b : array) (M : ndarray2) (reg : R) (numItermax : nat) (lr : option R)
  : Py G array :=
  (lr' <- lift (default_lr a reg lr) ;;
   st <- sag_loop a b M reg lr' numItermax ;;
   ret (sag_cur_beta st))%py.

Record asgd_state : Type := mk_asgd_state {
  asgd_cur_beta : array;
  ave_beta : array
}.

(** One turn of the loop of [averaged_sgd_entropic_transport], lines 250-254. *)
Definition asgd_body {G : RandomState}
    (b : array) (M : ndarray2) (reg lr : R) (n_source : nat)
    (cur_iter : nat) (st : asgd_state) : Py G asgd_state :=
  let k := (cur_iter + 1)%nat in
  (i <- np_random_randint n_source ;;
   cur_coord_grad <- lift (coordinate_grad_semi_dual b M reg (asgd_cur_beta st) i) ;;
   beta' <- lift (np_iadd (asgd_cur_beta st)
                          (np_muls (lr / sqrt (INR k)) cur_coord_grad)) ;;
   ave' <- lift (np_add (np_muls (1 / INR k) beta')
                        (np_muls (1 - 1 / INR k) (ave_beta st))) ;;
   ret (mk_asgd_state beta' ave'))%py.

Definition asgd_init (M : ndarray2) : asgd_state :=
  let n_target := shape1 M in
  mk_asgd_state (np_zeros n_target) (np_zeros n_target).

Definition asgd_loop {G : RandomState}
    (b : array) (M : ndarray2) (reg lr : R) (count : nat) : Py G asgd_state :=
  for_range (asgd_body b M reg lr (shape0 M)) 0 count (asgd_init M).

(** [averaged_sgd_entropic_transport(a, b, M, reg, numItermax, lr)],
    lines 243-255. *)
Definition averaged_sgd_entropic_transport {G : RandomState}
    (a b : array) (M : ndarray2) (reg : R) (numItermax : nat) (lr : option R)
  : Py G array :=
  (lr' <- lift (default_lr a reg lr) ;;
   st <- asgd_loop b M reg lr' numItermax ;;
   ret (ave_beta st))%py.

(* ===================================================================== *)
(** ** The c-transform *)
(* ===================================================================== *)

(** One turn of the loop of [c_transform_entropic], lines 324-327. *)
Definition c_transform_body
    (b : array) (M : ndarray2) (reg : R) (beta : array)
    (i : nat) (alpha : array) : res array :=
  (row <- getrow M i ;;
   r <- np_sub row beta ;;
   min_r <- np_min r ;;
   exp_beta <- np_mul (np_exp (np_divs (np_neg (np_subs r min_r)) reg)) b ;;
   setitem alpha i (min_r - reg * ln (np_sum exp_beta)))%res.

(** [c_transform_entropic(b, M, reg, beta)], lines 321-328. *)
Definition c_transform_entropic
    (b : array) (M : ndarray2) (reg : R) (beta : array) : res array :=
  let n_source := shape0 M in
  rfor_range (c_transform_body b M reg beta) 0 n_source (np_zeros n_source).

(* ===================================================================== *)
(** ** The semi-dual orchestrator *)
(* ===================================================================== *)

(** [str.lower()].  Only the letters A-Z change; no other character lowers
    to an ASCII letter, so the comparison with "sag" and "asgd" is decided
    by the ASCII letters alone. *)
Definition ascii_lower (c : ascii) : ascii :=
  let n := nat_of_ascii c in
  if ((65 <=? n) && (n <=? 90))%nat then ascii_of_nat (n + 32) else c.

Fixpoint lower (s : string) : string :=
  match s with
  | EmptyString => EmptyString
  | String c t => String (ascii_lower c) (lower t)
  end.

(** What a call returns: [None], [pi], or [(pi, log)] with the dictionary
    [log] as its items in insertion order. *)
Inductive retval : Type :=
| RNone
| RPlan (pi : ndarray2)
| RPlanLog (pi : ndarray2) (log : list (string * array)).

(** Lines 420-430 of [solve_semi_dual_entropic]. *)
Definition semi_dual_finish
    (a b : array) (M : ndarray2) (reg : R) (opt_beta : array) (log : bool)
  : res retval :=
  (opt_alpha <- c_transform_entropic b M reg opt_beta ;;
   s <- np_binop2 Rplus (as_column opt_alpha) (as_row opt_beta) ;;
   d <- np_binop2 Rminus s M ;;
   p <- np_binop2 Rmult (np_map2d exp (np_map2d (fun u => u / reg) d))
                        (as_column a) ;;
   pi <- np_binop2 Rmult p (as_row b) ;;
   if log
   then Ok (RPlanLog pi [("alpha"%string, opt_alpha); ("beta"%string, opt_beta)])
   else Ok (RPlan pi))%res.

(** [solve_semi_dual_entropic(a, b, M, reg, method, numItermax, lr, log)],
    lines 412-430. *)
Definition solve_semi_dual_entropic {G : RandomState}
    (a b : array) (M : ndarray2) (reg : R) (method : string)
    (numItermax : nat) (lr : option R) (log : bool) : Py G retval :=
  if String.eqb (lower method) "sag" then
    (opt_beta <- sag_entropic_transport a b M reg numItermax lr ;;
     lift (semi_dual_finish a b M reg opt_beta log))%py
  else if String.eqb (lower method) "asgd" then
    (opt_beta <- averaged_sgd_entropic_transport a b M reg numItermax lr ;;
     lift (semi_dual_finish a b M reg opt_beta log))%py
  else
    (_ <- print "Please, select your method between SAG and ASGD" ;;
     ret RNone)%py.

(* ===================================================================== *)
(** ** Dual problem: batch gradients, SGD and the orchestrator *)
(* ===================================================================== *)

Definition np_sadd (c : R) (x : array) : array := map (fun u => c + u) x.

(** [v[:] = c]. *)
Definition np_fill (v : array) (c : R) : array := map (fun _ => c) v.

(** [batch_grad_dual_alpha], lines 513-518. *)
Definition batch_grad_dual_alpha
    (M : ndarray2) (reg : R) (alpha beta : array) (batch_size : nat)
    (batch_alpha batch_beta : list nat) : res array :=
  let grad_alpha := np_fill (np_zeros batch_size) (INR batch_size) in
  rfor_each
    (fun j grad_alpha =>
       (t <- take alpha batch_alpha ;;
        bj <- getitem beta j ;;
        m <- take_col M batch_alpha j ;;
        d <- np_sub (np_adds t bj) m ;;
        np_isub grad_alpha (np_exp (np_divs d reg)))%res)
    batch_beta grad_alpha.

(** [batch_grad_dual_beta], lines 597-602. *)
Definition batch_grad_dual_beta
    (M : ndarray2) (reg : R) (alpha beta : array) (batch_size : nat)
    (batch_alpha batch_beta : list nat) : res array :=
  let grad_beta := np_fill (np_zeros batch_size) (INR batch_size) in
  rfor_each
    (fun i grad_beta =>
       (ai <- getitem alpha i ;;
        t <- take beta batch_beta ;;
        m <- take_row M i batch_beta ;;
        d <- np_sub (np_sadd ai t) m ;;
        np_isub grad_beta (np_exp (np_divs d reg)))%res)
    batch_alpha grad_beta.

Record sgd_state : Type := mk_sgd_state {
  sgd_cur_alpha : array;
  sgd_cur_beta : array
}.

(** The loop body of [sgd_entropic_regularization] when [alternate] is true,
    lines 684-694. *)
Definition sgd_body_alternate {G : RandomState}
    (M : ndarray2) (reg : R) (batch_size : nat) (lr : R) (n_source n_target : nat)
    (cur_iter : nat) (st : sgd_state) : Py G sgd_state :=
  let k := sqrt (INR (cur_iter + 1)) in
  (batch_alpha <- np_random_choice n_source batch_size ;;
   batch_beta <- np_random_choice n_target batch_size ;;
   grad_F_alpha <- lift (batch_grad_dual_alpha M reg (sgd_cur_alpha st)
                           (sgd_cur_beta st) batch_size batch_alpha batch_beta) ;;
   alpha' <- lift (iadd_at (sgd_cur_alpha st) batch_alpha
                           (np_muls (lr / k) grad_F_alpha)) ;;
   grad_F_beta <- lift (batch_grad_dual_beta M reg alpha'
                          (sgd_cur_beta st) batch_size batch_alpha batch_beta) ;;
   beta' <- lift (iadd_at (sgd_cur_beta st) batch_beta
                          (np_muls (lr / k) grad_F_beta)) ;;
   ret (mk_sgd_state alpha' beta'))%py.

(** The loop body when [alternate] is false, lines 698-708. *)
Definition sgd_body_joint {G : RandomState}
    (M : ndarray2) (reg : R) (batch_size : nat) (lr : R) (n_source n_target : nat)
    (cur_iter : nat) (st : sgd_state) : Py G sgd_state :=
  let k := sqrt (INR (cur_iter + 1)) in
  (batch_alpha <- np_random_choice n_source batch_size ;;
   batch_beta <- np_random_choice n_target batch_size ;;
   grad_F_alpha <- lift (batch_grad_dual_alpha M reg (sgd_cur_alpha st)
                           (sgd_cur_beta st) batch_size batch_alpha batch_beta) ;;
   grad_F_beta <- lift (batch_grad_dual_beta M reg (sgd_cur_alpha st)
                          (sgd_cur_beta st) batch_size batch_alpha batch_beta) ;;
   alpha' <- lift (iadd_at (sgd_cur_alpha st) batch_alpha
                           (np_muls (lr / k) grad_F_alpha)) ;;
   beta' <- lift (iadd_at (sgd_cur_beta st) batch_beta
                          (np_muls (lr / k) grad_F_beta)) ;;
   ret (mk_sgd_state alpha' beta'))%py.

(** [sgd_entropic_regularization(M, reg, batch_size, numItermax, lr,
    alternate)], lines 678-710. *)
Definition sgd_entropic_regularization {G : RandomState}
    (M : ndarray2) (reg : R) (batch_size numItermax : nat) (lr : R)
    (alternate : bool) : Py G (array * array) :=
  let n_source := shape0 M in
  let n_target := shape1 M in
  (cur_alpha <- np_random_randn n_source ;;
   cur_beta <- np_random_randn n_target ;;
   st <- (if alternate
          then for_range (sgd_body_alternate M reg batch_size lr n_source n_target)
                         0 numItermax (mk_sgd_state cur_alpha cur_beta)
          else for_range (sgd_body_joint M reg batch_size lr n_source n_target)
                         0 numItermax (mk_sgd_state cur_alpha cur_beta)) ;;
   ret (sgd_cur_alpha st, sgd_cur_beta st))%py.

(** [solve_dual_entropic(a, b, M, reg, batch_size, numItermax, lr, log)],
    lines 790-800; the solver is called with its default [alternate=True]. *)
Definition solve_dual_entropic {G : RandomState}
    (a b : array) (M : ndarray2) (reg : R) (batch_size numItermax : nat)
    (lr : R) (log : bool) : Py G retval :=
  (ab <- sgd_entropic_regularization M reg batch_size numItermax lr true ;;
   let opt_alpha := fst ab in
   let opt_beta := snd ab in
   lift (s <- np_binop2 Rplus (as_column opt_alpha) (as_row opt_beta) ;;
         d <- np_binop2 Rminus s M ;;
         p <- np_binop2 Rmult (np_map2d exp (np_map2d (fun u => u / reg) d))
                              (as_column a) ;;
         pi <- np_binop2 Rmult p (as_row b) ;;
         if log
         then Ok (RPlanLog pi [("alpha"%string, opt_alpha); ("beta"%string, opt_beta)])
         else Ok (RPlan pi))%res)%py.

(* ===================================================================== *)
(** ** The algorithms as the specification words them *)
(* ===================================================================== *)

(** The sequence of source indices that [count] successive calls of
    [randint(ns)] draw from a generator state, and the state they leave. *)
Fixpoint randint_trace (G : RandomState) (ns count : nat) (g : rng_state G)
  : list nat :=
  match count with
  | O => []
  | S c => fst (randint G ns g) :: randint_trace G ns c (snd (randint G ns g))
  end.

Fixpoint randint_after (G : RandomState) (ns count : nat) (g : rng_state G)
  : rng_state G :=
  match count with
  | O => g
  | S c => randint_after G ns c (snd (randint G ns g))
  end.

(** [m] is the largest entry of [l]; [m] is the smallest entry of [l]. *)
Definition is_max (m : R) (l : list R) : Prop :=
  In m l /\ Forall (fun x => x <= m) l.
Definition is_min (m : R) (l : list R) : Prop :=
  In m l /\ Forall (fun x => m <= x) l.

(** Section 4.1: [b - khi]. *)
Definition grad_spec (b : array) (M : ndarray2) (reg : R) (beta : array)
    (i nt : nat) : array :=
  map2 Rminus b (khi_of (gibbs_weights b M reg beta i nt)).

(** Section 4.2: the state of SAG is the dual vector, the table of the
    gradients stored per source index, and their running sum.  A step with
    the sampled index [i] computes [a[i] * CoordinateGradient], replaces the
    contribution stored for [i] in the running sum by it, and moves [beta] by
    [lr * (1/ns) * sum]. *)
Record sag_spec_state : Type := mk_sag_spec_state {
  sp_beta : array;
  sp_table : nat -> array;
  sp_sum : array
}.

Definition sag_spec_step (a b : array) (M : ndarray2) (reg lr : R) (ns nt : nat)
    (s : sag_spec_state) (i : nat) : sag_spec_state :=
  let cur_coord_grad := np_muls (nth i a 0) (grad_spec b M reg (sp_beta s) i nt) in
  let sum' := map2 Rplus (map2 Rminus (sp_sum s) (sp_table s i)) cur_coord_grad in
  {| sp_beta := map2 Rplus (sp_beta s) (np_muls (lr * (1 / INR ns)) sum');
     sp_table := fun r => if (r =? i)%nat then cur_coord_grad else sp_table s r;
     sp_sum := sum' |}.

Definition sag_spec_init (nt : nat) : sag_spec_state :=
  {| sp_beta := repeat 0 nt; sp_table := fun _ => repeat 0 nt; sp_sum := repeat 0 nt |}.

Definition sag_spec (a b : array) (M : ndarray2) (reg lr : R) (ns nt : nat)
    (samples : list nat) : sag_spec_state :=
  fold_left (sag_spec_step a b M reg lr ns nt) samples (sag_spec_init nt).

(** Section 4.3: at the 1-indexed iteration [k] with the sampled index [i],
    ASGD moves [cur_beta] by [(lr / sqrt k) * CoordinateGradient] and sets
    [ave_beta] to [(1/k) * cur_beta + (1 - 1/k) * ave_beta]. *)
Record asgd_spec_state : Type := mk_asgd_spec_state {
  sp_cur : array;
  sp_ave : array
}.

Definition asgd_spec_step (b : array) (M : ndarray2) (reg lr : R) (nt : nat)
    (s : asgd_spec_state) (k i : nat) : asgd_spec_state :=
  let cur := map2 Rplus (sp_cur s)
               (np_muls (lr / sqrt (INR k)) (grad_spec b M reg (sp_cur s) i nt)) in
  {| sp_cur := cur;
     sp_ave := map2 Rplus (np_muls (1 / INR k) cur)
                          (np_muls (1 - 1 / INR k) (sp_ave s)) |}.

Fixpoint asgd_spec_run (b : array) (M : ndarray2) (reg lr : R) (nt : nat)
    (k : nat) (samples : list nat) (s : asgd_spec_state) : asgd_spec_state :=
  match samples with
  | [] => s
  | i :: rest =>
      asgd_spec_run b M reg lr nt (S k) rest (asgd_spec_step b M reg lr nt s k i)
  end.

Definition asgd_spec (b : array) (M : ndarray2) (reg lr : R) (nt : nat)
    (samples : list nat) : asgd_spec_state :=
  asgd_spec_run b M reg lr nt 1 samples
    {| sp_cur := repeat 0 nt; sp_ave := repeat 0 nt |}.

(** The shapes that the loop of SAG keeps. *)
Definition sag_wf (ns nt : nat) (st : sag_state) : Prop :=
  length (sag_cur_beta st) = nt
  /\ shape0 (stored_gradient st) = ns
  /\ shape1 (stored_gradient st) = nt
  /\ length (sum_stored_gradient st) = nt.

(** The state that one turn of the loop of SAG produces when it samples [i]. *)
Definition sag_next (a b : array) (M : ndarray2) (reg lr : R) (ns nt : nat)
    (st : sag_state) (i : nat) : sag_state :=
  let g := np_muls (nth i a 0) (grad_spec b M reg (sag_cur_beta st) i nt) in
  let old := map (item (stored_gradient st) i) (seq 0 nt) in
  let sum' := map2 Rplus (sum_stored_gradient st) (map2 Rminus g old) in
  mk_sag_state
    (map2 Rplus (sag_cur_beta st) (np_muls (lr * (1 / INR ns)) sum'))
    {| shape0 := shape0 (stored_gradient st);
       shape1 := shape1 (stored_gradient st);
       item := fun r c => if (r =? i)%nat then nth c g 0
                          else item (stored_gradient st) r c |}
    sum'.

(** A generator for worked examples: its state counts the draws made;
    [randint(n)] returns the count modulo [n], [choice(n, k)] the first [k]
    indices and [randn(n)] the vector of [n] zeros. *)
Definition counter_rng : RandomState.
Proof.
  refine {| rng_state := nat;
            randint := fun n g => (g mod n, S g)%nat;
            choice := fun n k g => (seq 0 k, S g);
            randn := fun n g => (repeat 0 n, S g) |}.
  - intros n g H. simpl. apply Nat.mod_upper_bound. lia.
  - intros n k g H. simpl. apply length_seq.
  - intros n k g H. simpl. apply Forall_forall. intros i Hi.
    apply in_seq in Hi. lia.
  - intros n k g H. simpl. apply seq_NoDup.
  - intros n g. simpl. apply repeat_length.
Defined.

(** A small instance: two sources, two targets, uniform weights and the
    cost 0 on the diagonal, 1 off it. *)
Definition ex_weights : array := [1/2; 1/2].
Definition ex_cost : ndarray2 := of_rows 2 [[0; 1]; [1; 0]].
Definition ex_world : world counter_rng := mk_world (0%nat : rng_state counter_rng) [].

(** The state of the loop of SAG and the state of its specification agree. *)
Definition sag_sim (ns nt : nat) (st : sag_state) (s : sag_spec_state) : Prop :=
  sag_wf ns nt st
  /\ sag_cur_beta st = sp_beta s
  /\ sum_stored_gradient st = sp_sum s
  /\ forall r, (r < ns)%nat ->
       map (item (stored_gradient st) r) (seq 0 nt) = sp_table s r.

(** The state that one turn of the loop of ASGD produces at the 0-indexed
    turn [cur_iter] when it samples [i]. *)
Definition asgd_next (b : array) (M : ndarray2) (reg lr : R) (nt : nat)
    (cur_iter : nat) (st : asgd_state) (i : nat) : asgd_state :=
  let k := (cur_iter + 1)%nat in
  let beta' := map2 Rplus (asgd_cur_beta st)
                 (np_muls (lr / sqrt (INR k))
                    (grad_spec b M reg (asgd_cur_beta st) i nt)) in
  mk_asgd_state beta'
    (map2 Rplus (np_muls (1 / INR k) beta') (np_muls (1 - 1 / INR k) (ave_beta st))).

Definition asgd_wf (nt : nat) (st : asgd_state) : Prop :=
  length (asgd_cur_beta st) = nt /\ length (ave_beta st) = nt.

(** Section 4.4: the row [r = M[i,:] - beta], its smallest entry, the shifted
    weights [exp(-(r - min_r)/reg) * b], and the entry [alpha[i]]. *)
Definition cost_row (M : ndarray2) (beta : array) (i nt : nat) : array :=
  map (fun j => item M i j - nth j beta 0) (seq 0 nt).

Definition min_of (l : list R) : R :=
  match l with
  | [] => 0
  | x :: t => fold_left Rmin t x
  end.

Definition shifted_weights (b : array) (M : ndarray2) (reg : R) (beta : array)
    (i nt : nat) (min_r : R) : array :=
  map (fun j => exp (- ((item M i j - nth j beta 0) - min_r) / reg) * nth j b 0)
      (seq 0 nt).

Definition c_transform_entry (b : array) (M : ndarray2) (reg : R) (beta : array)
    (i nt : nat) : R :=
  let min_r := min_of (cost_row M beta i nt) in
  min_r - reg * ln (np_sum (shifted_weights b M reg beta i nt min_r)).

(** All the ways of writing a string in upper and lower case letters. *)
Definition ascii_upper (c : ascii) : ascii :=
  let n := nat_of_ascii c in
  if ((97 <=? n) && (n <=? 122))%nat then ascii_of_nat (n - 32) else c.

Fixpoint casings (s : string) : list string :=
  match s with
  | EmptyString => [EmptyString]
  | String c t =>
      flat_map (fun r => [String (ascii_lower c) r; String (ascii_upper c) r])
               (casings t)
  end.

(** Section 4.6 in closed form: the partial gradients over the batches. *)
Definition dual_grad_alpha_spec (M : ndarray2) (reg : R) (alpha beta : array)
    (batch_size : nat) (batch_alpha batch_beta : list nat) : array :=
  map (fun i =>
         INR batch_size
         - np_sum (map (fun j => exp ((nth i alpha 0 + nth j beta 0 - item M i j) / reg))
                       batch_beta))
      batch_alpha.

Definition dual_grad_beta_spec (M : ndarray2) (reg : R) (alpha beta : array)
    (batch_size : nat) (batch_alpha batch_beta : list nat) : array :=
  map (fun j =>
         INR batch_size
         - np_sum (map (fun i => exp ((nth i alpha 0 + nth j beta 0 - item M i j) / reg))
                       batch_alpha))
      batch_beta.

(** The position of [q] in a batch, and the vector [v] with [w[p]] added at
    each index [idx[p]] of the batch. *)
Fixpoint index_of (q : nat) (idx : list nat) : option nat :=
  match idx with
  | [] => None
  | i :: rest => if (q =? i)%nat then Some 0%nat else option_map S (index_of q rest)
  end.

Definition add_at_spec (v : array) (idx : list nat) (w : array) : array :=
  map (fun q => match index_of q idx with
                | Some p => nth q v 0 + nth p w 0
                | None => nth q v 0
                end)
      (seq 0 (length v)).

(** Section 4.7: one iteration [k] (1-indexed) on the batches drawn, with
    the step [lr / sqrt k].  When [alternate] holds the gradient in [beta] is
    taken at the updated [alpha]; otherwise both gradients are taken at the
    state before the iteration. *)
Definition dual_spec_step (alternate : bool) (M : ndarray2) (reg : R)
    (batch_size : nat) (lr : R) (k : nat) (s : array * array)
    (batches : list nat * list nat) : array * array :=
  let '(alpha, beta) := s in
  let '(batch_alpha, batch_beta) := batches in
  let step := lr / sqrt (INR k) in
  if alternate then
    let alpha' := add_at_spec alpha batch_alpha
                    (np_muls step (dual_grad_alpha_spec M reg alpha beta batch_size
                                     batch_alpha batch_beta)) in
    let beta' := add_at_spec beta batch_beta
                   (np_muls step (dual_grad_beta_spec M reg alpha' beta batch_size
                                    batch_alpha batch_beta)) in
    (alpha', beta')
  else
    let grad_alpha := dual_grad_alpha_spec M reg alpha beta batch_size
                        batch_alpha batch_beta in
    let grad_beta := dual_grad_beta_spec M reg alpha beta batch_size
                       batch_alpha batch_beta in
    (add_at_spec alpha batch_alpha (np_muls step grad_alpha),
     add_at_spec beta batch_beta (np_muls step grad_beta)).

Fixpoint dual_spec_run (alternate : bool) (M : ndarray2) (reg : R)
    (batch_size : nat) (lr : R) (k : nat) (batches : list (list nat * list nat))
    (s : array * array) : array * array :=
  match batches with
  | [] => s
  | bb :: rest =>
      dual_spec_run alternate M reg batch_size lr (S k) rest
        (dual_spec_step alternate M reg batch_size lr k s bb)
  end.

(** The batches that [count] iterations draw, a batch of source indices and
    then a batch of target indices at each, and the generator state left. *)
Fixpoint choice_trace (G : RandomState) (ns nt batch_size count : nat)
    (g : rng_state G) : list (list nat * list nat) :=
  match count with
  | O => []
  | S c =>
      let ba := choice G ns batch_size g in
      let bb := choice G nt batch_size (snd ba) in
      (fst ba, fst bb) :: choice_trace G ns nt batch_size c (snd bb)
  end.

Fixpoint choice_after (G : RandomState) (ns nt batch_size count : nat)
    (g : rng_state G) : rng_state G :=
  match count with
  | O => g
  | S c =>
      choice_after G ns nt batch_size c
        (snd (choice G nt batch_size (snd (choice G ns batch_size g))))
  end.

(** A batch as the solver draws it: [batch_size] distinct indices below [n]. *)
Definition valid_batch (n batch_size : nat) (l : list nat) : Prop :=
  length l = batch_size /\ NoDup l /\ Forall (fun i => (i < n)%nat) l.

(** The vectors of the loops of SAG and ASGD all sum to zero. *)
Definition sag_zero_sum (ns nt : nat) (st : sag_state) : Prop :=
  sag_wf ns nt st
  /\ np_sum (sag_cur_beta st) = 0
  /\ np_sum (sum_stored_gradient st) = 0
  /\ forall r, (r < ns)%nat ->
       np_sum (map (item (stored_gradient st) r) (seq 0 nt)) = 0.

Definition asgd_zero_sum (nt : nat) (st : asgd_state) : Prop :=
  asgd_wf nt st
  /\ np_sum (asgd_cur_beta st) = 0
  /\ np_sum (ave_beta st) = 0.

(** Sections 4.5 and 4.8: [pi] is the plan of the Gibbs kernel of
    [(alpha, beta)], and what an orchestrator returns for it. *)
Definition is_gibbs_plan (a b : array) (M : ndarray2) (reg : R)
    (alpha beta : array) (pi : ndarray2) : Prop :=
  shape0 pi = shape0 M /\ shape1 pi = shape1 M
  /\ forall i j, (i < shape0 M)%nat -> (j < shape1 M)%nat ->
       item pi i j
       = exp ((nth i alpha 0 + nth j beta 0 - item M i j) / reg)
         * nth i a 0 * nth j b 0.

Definition plan_result (log : bool) (pi : ndarray2) (alpha beta : array) : retval :=
  if log then RPlanLog pi [("alpha"%string, alpha); ("beta"%string, beta)]
  else RPlan pi.


(** The result of a call without its [log] part. *)
Definition drop_log (r : retval) : retval :=
  match r with
  | RPlanLog pi _ => RPlan pi
  | _ => r
  end.

Definition rmap {A B : Type} (f : A -> B) (c : res A) : res B :=
  match c with
  | Ok a => Ok (f a)
  | Raise e => Raise e
  end.

(* ===================================================================== *)
(** ** Lemmas on the numpy layer *)
(* ===================================================================== *)

Lemma map2_length f x y :
  length x = length y -> length (map2 f x y) = length x.
Proof.
  revert y; induction x as [|u x IH]; intros [|v y] H; simpl in *; try lia.
  rewrite IH; lia.
Qed.

Lemma map2_nth f x y j :
  length x = length y -> (j < length x)%nat ->
  nth j (map2 f x y) 0 = f (nth j x 0) (nth j y 0).
Proof.
  revert y j; induction x as [|u x IH]; intros [|v y] j H Hj; simpl in *; try lia.
  destruct j as [|j]; [reflexivity|]. apply IH; lia.
Qed.

Lemma list_eq_nth (x y : list R) :
  length x = length y ->
  (forall j, (j < length x)%nat -> nth j x 0 = nth j y 0) -> x = y.
Proof.
  revert y; induction x as [|u x IH]; intros [|v y] H Hn; simpl in *; try lia.
  - reflexivity.
  - f_equal.
    + apply (Hn 0%nat); lia.
    + apply IH; [lia|]. intros j Hj. apply (Hn (S j)); lia.
Qed.

Lemma nth_map_seq (f : nat -> R) n j :
  (j < n)%nat -> nth j (map f (seq 0 n)) 0 = f j.
Proof.
  intros Hj.
  rewrite (nth_indep _ 0 (f 0%nat)) by (now rewrite length_map, length_seq).
  rewrite (map_nth f), seq_nth by assumption. reflexivity.
Qed.

Lemma map_seq_nth (x : list R) :
  map (fun j => nth j x 0) (seq 0 (length x)) = x.
Proof.
  apply list_eq_nth.
  - now rewrite length_map, length_seq.
  - intros j Hj. rewrite length_map, length_seq in Hj.
    now rewrite nth_map_seq.
Qed.

Lemma nth_map_R (f : R -> R) x j :
  (j < length x)%nat -> nth j (map f x) 0 = f (nth j x 0).
Proof.
  intros Hj. rewrite (nth_indep _ 0 (f 0)) by (now rewrite length_map).
  apply map_nth.
Qed.

Lemma broadcast_len_same n : broadcast_len n n = Ok n.
Proof. unfold broadcast_len. now rewrite Nat.eqb_refl. Qed.

Lemma broadcast_to_same n v : length v = n -> broadcast_to n v = Ok v.
Proof. intros <-. unfold broadcast_to. now rewrite Nat.eqb_refl. Qed.

Lemma np_binop_same f x y :
  length x = length y -> np_binop f x y = Ok (map2 f x y).
Proof.
  intros H. unfold np_binop. rewrite H, broadcast_len_same. simpl.
  rewrite !broadcast_to_same by congruence. reflexivity.
Qed.

Lemma np_iop_same f x y :
  length x = length y -> np_iop f x y = Ok (map2 f x y).
Proof.
  intros H. unfold np_iop. rewrite broadcast_to_same by congruence. reflexivity.
Qed.

Lemma getrow_ok M i :
  (i < shape0 M)%nat -> getrow M i = Ok (map (item M i) (seq 0 (shape1 M))).
Proof.
  intros H. unfold getrow. apply Nat.ltb_lt in H. now rewrite H.
Qed.

Lemma np_sum_divs x c : np_sum (np_divs x c) = np_sum x / c.
Proof.
  unfold np_sum, np_divs.
  induction x as [|u x IH]; simpl.
  - unfold Rdiv. now rewrite Rmult_0_l.
  - rewrite IH. unfold Rdiv. ring.
Qed.

Lemma np_sum_muls c x : np_sum (np_muls c x) = c * np_sum x.
Proof.
  unfold np_sum, np_muls.
  induction x as [|u x IH]; simpl.
  - now rewrite Rmult_0_r.
  - rewrite IH. ring.
Qed.

Lemma np_sum_map2_plus x y :
  length x = length y -> np_sum (map2 Rplus x y) = np_sum x + np_sum y.
Proof.
  unfold np_sum.
  revert y; induction x as [|u x IH]; intros [|v y] H; simpl in *; try lia.
  - ring.
  - rewrite IH by lia. ring.
Qed.

Lemma np_sum_map2_minus x y :
  length x = length y -> np_sum (map2 Rminus x y) = np_sum x - np_sum y.
Proof.
  unfold np_sum.
  revert y; induction x as [|u x IH]; intros [|v y] H; simpl in *; try lia.
  - ring.
  - rewrite IH by lia. ring.
Qed.

Lemma np_sum_zeros n : np_sum (np_zeros n) = 0.
Proof.
  unfold np_sum, np_zeros.
  induction n; simpl; [reflexivity|]. rewrite IHn. ring.
Qed.

Lemma np_sum_nonneg x : Forall (Rle 0) x -> 0 <= np_sum x.
Proof.
  unfold np_sum. induction 1 as [|u x Hu _ IH]; simpl; lra.
Qed.

(** The coordinate gradient in closed form, for well-shaped arguments. *)
Lemma coordinate_grad_semi_dual_eq b M reg beta i nt :
  length b = nt -> shape1 M = nt -> length beta = nt -> (i < shape0 M)%nat ->
  coordinate_grad_semi_dual b M reg beta i
  = Ok (map2 Rminus b (khi_of (gibbs_weights b M reg beta i nt))).
Proof.
  intros Hb HM Hbeta Hi. unfold coordinate_grad_semi_dual.
  rewrite getrow_ok by assumption. simpl.
  unfold np_sub. rewrite np_binop_same by (rewrite length_map, length_seq; congruence).
  simpl. unfold np_mul, np_exp, np_divs, np_neg.
  rewrite np_binop_same
    by (rewrite !length_map, map2_length; rewrite length_map, length_seq; congruence).
  simpl.
  assert (Hg : map2 Rmult
                 (map exp (map (fun u => u / reg)
                    (map Ropp (map2 Rminus (map (item M i) (seq 0 (shape1 M))) beta)))) b
               = gibbs_weights b M reg beta i nt).
  { apply list_eq_nth.
    - rewrite map2_length; rewrite !length_map, map2_length;
        rewrite ?length_map, ?length_seq; unfold gibbs_weights;
        rewrite ?length_map, ?length_seq; congruence.
    - intros j Hj.
      rewrite map2_length in Hj
        by (rewrite !length_map, map2_length; rewrite length_map, length_seq; congruence).
      rewrite !length_map, map2_length in Hj by (rewrite length_map, length_seq; congruence).
      rewrite length_map, length_seq, HM in Hj.
      rewrite map2_nth;
        [| rewrite !length_map, map2_length; rewrite length_map, length_seq; congruence
         | rewrite !length_map, map2_length; rewrite length_map, length_seq; congruence].
      rewrite !nth_map_R;
        [| rewrite map2_length; rewrite length_map, length_seq; congruence
         | rewrite length_map, map2_length; rewrite length_map, length_seq; congruence
         | rewrite !length_map, map2_length; rewrite length_map, length_seq; congruence].
      rewrite map2_nth; [| rewrite length_map, length_seq; congruence
                         | rewrite length_map, length_seq; congruence].
      rewrite HM, nth_map_seq by assumption.
      unfold gibbs_weights. rewrite nth_map_seq by assumption. reflexivity. }
  rewrite Hg.
  rewrite np_binop_same; [reflexivity|].
  unfold khi_of, gibbs_weights. rewrite !length_map, length_seq. congruence.
Qed.

(* ===================================================================== *)
(** ** The coordinate gradient (section 4.1) *)
(* ===================================================================== *)

Lemma nth_nonneg (b : list R) j : Forall (Rle 0) b -> 0 <= nth j b 0.
Proof.
  intros H. destruct (Nat.lt_ge_cases j (length b)) as [Hj|Hj].
  - rewrite Forall_forall in H. apply H, nth_In, Hj.
  - rewrite nth_overflow by assumption. lra.
Qed.

Lemma gibbs_weights_length b M reg beta i nt :
  length (gibbs_weights b M reg beta i nt) = nt.
Proof. unfold gibbs_weights. now rewrite length_map, length_seq. Qed.

Lemma gibbs_weights_nonneg b M reg beta i nt :
  Forall (Rle 0) b -> Forall (Rle 0) (gibbs_weights b M reg beta i nt).
Proof.
  intros Hb. unfold gibbs_weights. apply Forall_forall. intros x Hx.
  apply in_map_iff in Hx. destruct Hx as [j [<- _]].
  apply Rmult_le_pos; [left; apply exp_pos | now apply nth_nonneg].
Qed.

Lemma khi_of_length g : length (khi_of g) = length g.
Proof. unfold khi_of. now rewrite length_map. Qed.

Lemma khi_of_nonneg g :
  Forall (Rle 0) g -> 0 < np_sum g -> Forall (Rle 0) (khi_of g).
Proof.
  intros Hg Hs. unfold khi_of. apply Forall_forall. intros x Hx.
  apply in_map_iff in Hx. destruct Hx as [u [<- Hu]].
  rewrite Forall_forall in Hg. specialize (Hg u Hu).
  apply Rmult_le_pos; [assumption | left; now apply Rinv_0_lt_compat].
Qed.

Lemma khi_of_sum g : np_sum g <> 0 -> np_sum (khi_of g) = 1.
Proof.
  intros Hs. change (khi_of g) with (np_divs g (np_sum g)).
  rewrite np_sum_divs. now field.
Qed.

(** C1: for well-shaped arguments and a row index [i < ns], the coordinate
    gradient is [b - khi] where [khi] is the vector of Gibbs weights
    [exp(-(M[i,:] - beta)/reg) * b] divided by its sum; the result has the
    length [nt] of [b]; and when [b] is non-negative and the normalizer is
    positive, [khi] is non-negative and sums to 1. *)
Theorem coordinate_grad_semi_dual_correct
    (b : array) (M : ndarray2) (reg : R) (beta : array) (i nt : nat) :
  length b = nt -> shape1 M = nt -> length beta = nt -> (i < shape0 M)%nat ->
  let g := gibbs_weights b M reg beta i nt in
  let khi := khi_of g in
  coordinate_grad_semi_dual b M reg beta i = Ok (map2 Rminus b khi)
  /\ length (map2 Rminus b khi) = nt
  /\ (Forall (Rle 0) b -> 0 < np_sum g ->
      Forall (Rle 0) khi /\ np_sum khi = 1).
Proof.
  intros Hb HM Hbeta Hi g khi. split; [|split].
  - now apply coordinate_grad_semi_dual_eq.
  - rewrite map2_length; [assumption|].
    subst khi g. now rewrite khi_of_length, gibbs_weights_length.
  - intros Hnn Hs. split.
    + apply khi_of_nonneg; [now apply gibbs_weights_nonneg | assumption].
    + apply khi_of_sum. lra.
Qed.

Lemma coordinate_grad_semi_dual_correct_witness :
  let b := [1/2; 1/2] in
  let M := of_rows 2 [[0; 1]; [1; 0]] in
  let g := gibbs_weights b M 1 [0; 0] 0 2 in
  coordinate_grad_semi_dual b M 1 [0; 0] 0%nat = Ok (map2 Rminus b (khi_of g))
  /\ length (map2 Rminus b (khi_of g)) = 2%nat
  /\ Forall (Rle 0) (khi_of g) /\ np_sum (khi_of g) = 1.
Proof.
  intros b M g.
  destruct (coordinate_grad_semi_dual_correct b M 1 [0; 0] 0 2)
    as [H1 [H2 H3]]; try reflexivity.
  - simpl; lia.
  - split; [exact H1|split; [exact H2|]].
    apply H3.
    + subst b. repeat constructor; lra.
    + subst g b M. unfold gibbs_weights. simpl.
      pose proof (exp_pos (- (0 - 0) / 1)). pose proof (exp_pos (- (1 - 0) / 1)). lra.
Defined.

(* ===================================================================== *)
(** ** Loops and the world *)
(* ===================================================================== *)

Lemma bind_lift_ok {G : RandomState} {A B : Type} (a : A) (k : A -> Py G B) w :
  bind (lift (Ok a)) k w = k a w.
Proof. reflexivity. Qed.

Lemma bind_ok {G : RandomState} {A B : Type} (c : Py G A) (k : A -> Py G B) w a w' :
  c w = (Ok a, w') -> bind c k w = k a w'.
Proof. intros H. unfold bind. now rewrite H. Qed.

Lemma for_range_split {G : RandomState} {S : Type} (body : nat -> S -> Py G S)
    (t m lo : nat) (s : S) (w : world G) :
  for_range body lo (t + m) s w
  = bind (for_range body lo t s) (for_range body (lo + t) m) w.
Proof.
  revert lo s w. induction t as [|t IH]; intros lo s w; simpl.
  - unfold bind, ret. now rewrite Nat.add_0_r.
  - unfold bind. destruct (body lo s w) as [[s'|e] w1]; [|reflexivity].
    rewrite IH. unfold bind. now rewrite Nat.add_succ_r.
Qed.

(** A property kept by every turn of a loop holds when the loop ends, and
    the loop does end without raising. *)
Lemma for_range_inv {G : RandomState} {S : Type} (body : nat -> S -> Py G S)
    (P : S -> Prop) :
  (forall k s w, P s -> exists s' w', body k s w = (Ok s', w') /\ P s') ->
  forall count lo s w, P s ->
  exists s' w', for_range body lo count s w = (Ok s', w') /\ P s'.
Proof.
  intros Hstep. induction count as [|c IH]; intros lo s w HP; simpl.
  - exists s, w. now split.
  - destruct (Hstep lo s w HP) as [s1 [w1 [E HP1]]].
    rewrite (bind_ok _ _ _ _ _ E). now apply IH.
Qed.

Lemma getitem_ok v i : (i < length v)%nat -> getitem v i = Ok (nth i v 0).
Proof.
  intros H. unfold getitem.
  rewrite (nth_error_nth' v 0 H). reflexivity.
Qed.

Lemma setrow_ok A i v :
  (i < shape0 A)%nat -> length v = shape1 A ->
  setrow A i v
  = Ok {| shape0 := shape0 A; shape1 := shape1 A;
          item := fun r c => if (r =? i)%nat then nth c v 0 else item A r c |}.
Proof.
  intros Hi Hv. unfold setrow. apply Nat.ltb_lt in Hi. rewrite Hi.
  rewrite broadcast_to_same by assumption. reflexivity.
Qed.

Lemma np_random_randint_ok {G : RandomState} n (w : world G) :
  (0 < n)%nat ->
  np_random_randint n w
  = (Ok (fst (randint G n (gen w))), mk_world (snd (randint G n (gen w))) (stdout w)).
Proof.
  intros Hn. unfold np_random_randint.
  destruct (Nat.eqb_spec n 0) as [->|_]; [lia|].
  now destruct (randint G n (gen w)).
Qed.

Lemma fold_left_Rmax_ge t x : x <= fold_left Rmax t x.
Proof.
  revert x; induction t as [|u t IH]; intros x; simpl; [lra|].
  eapply Rle_trans; [apply (Rmax_l x u)|apply IH].
Qed.

Lemma fold_left_Rmax_is_max t x : is_max (fold_left Rmax t x) (x :: t).
Proof.
  revert x; induction t as [|u t IH]; intros x; simpl.
  - split; [now left|]. constructor; [lra|constructor].
  - destruct (IH (Rmax x u)) as [Hin Hall]. split.
    + destruct Hin as [Hin|Hin]; [|now right; right].
      unfold Rmax in Hin at 1. destruct (Rle_dec x u); [right; now left|now left].
    + inversion Hall as [|? ? H1 H2]; subst.
      constructor; [|constructor; [|assumption]].
      * eapply Rle_trans; [apply (Rmax_l x u)|assumption].
      * eapply Rle_trans; [apply (Rmax_r x u)|assumption].
Qed.

Lemma fold_left_Rmin_is_min t x : is_min (fold_left Rmin t x) (x :: t).
Proof.
  revert x; induction t as [|u t IH]; intros x; simpl.
  - split; [now left|]. constructor; [lra|constructor].
  - destruct (IH (Rmin x u)) as [Hin Hall]. split.
    + destruct Hin as [Hin|Hin]; [|now right; right].
      unfold Rmin in Hin at 1. destruct (Rle_dec x u); [now left|right; now left].
    + inversion Hall as [|? ? H1 H2]; subst.
      constructor; [|constructor; [|assumption]].
      * eapply Rle_trans; [eassumption|apply (Rmin_l x u)].
      * eapply Rle_trans; [eassumption|apply (Rmin_r x u)].
Qed.

Lemma py_max_ok v :
  (0 < length v)%nat -> exists m, py_max v = Ok m /\ is_max m v.
Proof.
  destruct v as [|x t]; simpl; [lia|]. intros _.
  exists (fold_left Rmax t x). split; [reflexivity|apply fold_left_Rmax_is_max].
Qed.

Lemma np_min_ok v :
  (0 < length v)%nat -> exists m, np_min v = Ok m /\ is_min m v.
Proof.
  destruct v as [|x t]; simpl; [lia|]. intros _.
  exists (fold_left Rmin t x). split; [reflexivity|apply fold_left_Rmin_is_min].
Qed.

Lemma is_max_unique m m' l : is_max m l -> is_max m' l -> m = m'.
Proof.
  intros [Hi Ha] [Hi' Ha']. rewrite Forall_forall in Ha, Ha'.
  apply Rle_antisym; [now apply Ha'|now apply Ha].
Qed.


(* ===================================================================== *)
(** ** SAG (section 4.2) *)
(* ===================================================================== *)

Lemma np_muls_length c x : length (np_muls c x) = length x.
Proof. unfold np_muls. now rewrite length_map. Qed.

Lemma grad_spec_length b M reg beta i nt :
  length b = nt -> length (grad_spec b M reg beta i nt) = nt.
Proof.
  intros Hb. unfold grad_spec.
  rewrite map2_length; [assumption|].
  now rewrite khi_of_length, gibbs_weights_length.
Qed.

Lemma sag_body_ok {G : RandomState} a b M reg lr ns nt k st (w : world G) :
  length a = ns -> length b = nt -> shape0 M = ns -> shape1 M = nt ->
  (0 < ns)%nat -> sag_wf ns nt st ->
  sag_body a b M reg lr ns k st w
  = (Ok (sag_next a b M reg lr ns nt st (fst (randint G ns (gen w)))),
     mk_world (snd (randint G ns (gen w))) (stdout w)).
Proof.
  intros Ha Hb HM0 HM1 Hns (Hbeta & Hs0 & Hs1 & Hsum).
  pose proof (randint_lt G ns (gen w) Hns) as Hi.
  set (i := fst (randint G ns (gen w))) in *.
  unfold sag_body.
  rewrite (bind_ok _ _ _ _ _ (np_random_randint_ok ns w Hns)). fold i.
  rewrite getitem_ok by lia. rewrite bind_lift_ok.
  rewrite (coordinate_grad_semi_dual_eq b M reg _ i nt) by (try assumption; lia).
  rewrite bind_lift_ok.
  rewrite getrow_ok by lia. rewrite bind_lift_ok.
  fold (grad_spec b M reg (sag_cur_beta st) i nt).
  unfold np_sub. rewrite np_binop_same
    by (rewrite np_muls_length, grad_spec_length, length_map, length_seq; congruence).
  rewrite bind_lift_ok.
  unfold np_iadd. rewrite np_iop_same
    by (rewrite map2_length; rewrite np_muls_length, grad_spec_length,
          ?length_map, ?length_seq; congruence).
  rewrite bind_lift_ok.
  rewrite setrow_ok by (rewrite ?np_muls_length, ?grad_spec_length; congruence).
  rewrite bind_lift_ok.
  rewrite np_iop_same.
  - rewrite bind_lift_ok. unfold ret, sag_next. rewrite Hs1. reflexivity.
  - rewrite np_muls_length, map2_length; [congruence|].
    rewrite map2_length; rewrite np_muls_length, grad_spec_length,
          ?length_map, ?length_seq; congruence.
Qed.

Lemma np_sum_map_update (f : nat -> R) (lo n i : nat) (x : R) :
  (lo <= i < lo + n)%nat ->
  np_sum (map (fun r => if (r =? i)%nat then x else f r) (seq lo n))
  = np_sum (map f (seq lo n)) + (x - f i).
Proof.
  unfold np_sum. revert lo. induction n as [|n IH]; intros lo H; [lia|].
  simpl. destruct (Nat.eqb_spec lo i) as [->|Hne].
  - assert (E : map (fun r => if (r =? i)%nat then x else f r) (seq (S i) n)
                = map f (seq (S i) n)).
    { apply map_ext_in. intros r Hr. apply in_seq in Hr.
      destruct (Nat.eqb_spec r i); [lia|reflexivity]. }
    rewrite E. ring.
  - rewrite IH by lia. ring.
Qed.

(** Replacing row [i] of the table by [g] moves every column sum by
    [g - old row]. *)
Lemma np_sum_axis0_setrow A i g :
  (i < shape0 A)%nat -> length g = shape1 A ->
  np_sum_axis0 {| shape0 := shape0 A; shape1 := shape1 A;
                  item := fun r c => if (r =? i)%nat then nth c g 0 else item A r c |}
  = map2 Rplus (np_sum_axis0 A)
               (map2 Rminus g (map (item A i) (seq 0 (shape1 A)))).
Proof.
  intros Hi Hg. unfold np_sum_axis0. simpl.
  apply list_eq_nth.
  - rewrite map2_length; rewrite ?length_map, ?length_seq; [reflexivity|].
    rewrite map2_length; rewrite ?length_map, ?length_seq; congruence.
  - intros c Hc. rewrite length_map, length_seq in Hc.
    rewrite nth_map_seq by assumption.
    rewrite map2_nth;
      [| rewrite map2_length; rewrite ?length_map, ?length_seq; congruence
       | now rewrite length_map, length_seq].
    rewrite nth_map_seq by assumption.
    rewrite map2_nth; [| rewrite length_map, length_seq; congruence | lia].
    rewrite nth_map_seq by assumption.
    apply (np_sum_map_update (fun r => item A r c)). lia.
Qed.

Lemma np_sum_axis0_zeros n m : np_sum_axis0 (np_zeros2 n m) = np_zeros m.
Proof.
  unfold np_sum_axis0, np_zeros. simpl.
  apply list_eq_nth.
  - now rewrite length_map, length_seq, repeat_length.
  - intros c Hc. rewrite length_map, length_seq in Hc.
    rewrite nth_map_seq by assumption.
    rewrite nth_repeat.
    unfold np_sum. induction (seq 0 n) as [|r l IH]; simpl; [reflexivity|].
    rewrite IH. ring.
Qed.

Lemma sag_init_wf M : sag_wf (shape0 M) (shape1 M) (sag_init M).
Proof.
  unfold sag_wf, sag_init, np_zeros. simpl. now rewrite !repeat_length.
Qed.

Lemma sag_next_wf a b M reg lr ns nt st i :
  length b = nt -> sag_wf ns nt st -> sag_wf ns nt (sag_next a b M reg lr ns nt st i).
Proof.
  intros Hb (Hbeta & Hs0 & Hs1 & Hsum). unfold sag_wf, sag_next. simpl.
  assert (Hd : length (map2 Rminus
                 (np_muls (nth i a 0) (grad_spec b M reg (sag_cur_beta st) i nt))
                 (map (item (stored_gradient st) i) (seq 0 nt))) = nt).
  { rewrite map2_length; rewrite np_muls_length, grad_spec_length,
      ?length_map, ?length_seq; congruence. }
  assert (Hs : length (map2 Rplus (sum_stored_gradient st)
                 (map2 Rminus
                    (np_muls (nth i a 0) (grad_spec b M reg (sag_cur_beta st) i nt))
                    (map (item (stored_gradient st) i) (seq 0 nt)))) = nt).
  { rewrite map2_length; congruence. }
  repeat split; try assumption.
  rewrite map2_length; [assumption|]. rewrite np_muls_length. congruence.
Qed.

(** One turn of the loop adds the same vector to the running sum and to the
    column sums of the table. *)
Lemma sag_next_same_delta a b M reg lr ns nt st i :
  length b = nt -> sag_wf ns nt st -> (i < ns)%nat ->
  let delta := map2 Rminus
                 (np_muls (nth i a 0) (grad_spec b M reg (sag_cur_beta st) i nt))
                 (map (item (stored_gradient st) i) (seq 0 nt)) in
  let st' := sag_next a b M reg lr ns nt st i in
  sum_stored_gradient st' = map2 Rplus (sum_stored_gradient st) delta
  /\ np_sum_axis0 (stored_gradient st')
     = map2 Rplus (np_sum_axis0 (stored_gradient st)) delta.
Proof.
  intros Hb (Hbeta & Hs0 & Hs1 & Hsum) Hi delta st'. split; [reflexivity|].
  subst st' delta. unfold sag_next. cbn [stored_gradient].
  rewrite np_sum_axis0_setrow.
  - now rewrite Hs1.
  - lia.
  - rewrite np_muls_length, grad_spec_length; congruence.
Qed.

(** C2: at every iteration [t] of a run of SAG the running sum
    [sum_stored_gradient] is the column-by-column sum of the rows of
    [stored_gradient]; the state after [t] turns exists (no turn raises),
    the rest of the run continues from it, and one more turn from it adds
    one and the same [delta] to the running sum and to the column sums. *)
Theorem sag_gradient_table_invariant {G : RandomState}
    (a b : array) (M : ndarray2) (reg lr : R) (numItermax t : nat)
    (w : world G) :
  length a = shape0 M -> length b = shape1 M -> (0 < shape0 M)%nat ->
  (t <= numItermax)%nat ->
  exists st w1,
    sag_loop a b M reg lr t w = (Ok st, w1)
    /\ sum_stored_gradient st = np_sum_axis0 (stored_gradient st)
    /\ sag_loop a b M reg lr numItermax w
       = for_range (sag_body a b M reg lr (shape0 M)) t (numItermax - t) st w1
    /\ exists delta st' w2,
         sag_body a b M reg lr (shape0 M) t st w1 = (Ok st', w2)
         /\ sum_stored_gradient st' = map2 Rplus (sum_stored_gradient st) delta
         /\ np_sum_axis0 (stored_gradient st')
            = map2 Rplus (np_sum_axis0 (stored_gradient st)) delta.
Proof.
  intros Ha Hb Hns Ht.
  set (ns := shape0 M) in *. set (nt := shape1 M) in *.
  set (P := fun st => sag_wf ns nt st
                      /\ sum_stored_gradient st = np_sum_axis0 (stored_gradient st)).
  assert (Hstep : forall k st (w0 : world G), P st ->
            exists st' w', sag_body a b M reg lr ns k st w0 = (Ok st', w') /\ P st').
  { intros k st w0 [Hwf Hinv].
    eexists _, _. split.
    - apply (sag_body_ok a b M reg lr ns nt); auto.
    - split; [now apply sag_next_wf|].
      destruct (sag_next_same_delta a b M reg lr ns nt st
                  (fst (randint G ns (gen w0))) Hb Hwf) as [E1 E2].
      + now apply randint_lt.
      + rewrite E1, E2, Hinv. reflexivity. }
  assert (HP0 : P (sag_init M)).
  { split; [apply sag_init_wf|]. unfold sag_init. cbn [sum_stored_gradient stored_gradient].
    now rewrite np_sum_axis0_zeros. }
  destruct (for_range_inv _ P Hstep t 0%nat (sag_init M) w HP0) as [st [w1 [E [Hwf Hinv]]]].
  exists st, w1. split; [exact E|]. split; [exact Hinv|]. split.
  - unfold sag_loop. fold ns.
    replace numItermax with (t + (numItermax - t))%nat at 1 by lia.
    rewrite for_range_split. unfold sag_loop in E. fold ns in E.
    now rewrite (bind_ok _ _ _ _ _ E).
  - eexists _, _, _. split.
    + apply (sag_body_ok a b M reg lr ns nt); auto.
    + apply sag_next_same_delta; auto. now apply randint_lt.
Qed.

Lemma sag_gradient_table_invariant_witness :
  exists st w1,
    sag_loop ex_weights ex_weights ex_cost 1 1 1 ex_world = (Ok st, w1)
    /\ sum_stored_gradient st = np_sum_axis0 (stored_gradient st)
    /\ sag_loop ex_weights ex_weights ex_cost 1 1 2 ex_world
       = for_range (sag_body ex_weights ex_weights ex_cost 1 1 (shape0 ex_cost))
                   1 (2 - 1) st w1
    /\ exists delta st' w2,
         sag_body ex_weights ex_weights ex_cost 1 1 (shape0 ex_cost) 1 st w1
         = (Ok st', w2)
         /\ sum_stored_gradient st' = map2 Rplus (sum_stored_gradient st) delta
         /\ np_sum_axis0 (stored_gradient st')
            = map2 Rplus (np_sum_axis0 (stored_gradient st)) delta.
Proof.
  apply (sag_gradient_table_invariant ex_weights ex_weights ex_cost 1 1 2 1 ex_world).
  - reflexivity.
  - reflexivity.
  - simpl; lia.
  - lia.
Defined.

Lemma map2_plus_minus_swap x g o :
  length x = length g -> length g = length o ->
  map2 Rplus x (map2 Rminus g o) = map2 Rplus (map2 Rminus x o) g.
Proof.
  intros H1 H2. apply list_eq_nth.
  - rewrite !map2_length; rewrite ?map2_length; congruence.
  - intros j Hj. rewrite map2_length in Hj by (rewrite map2_length; congruence).
    rewrite !map2_nth; rewrite ?map2_length; try congruence; try lia.
    ring.
Qed.

Lemma randint_trace_length (G : RandomState) ns n g :
  length (randint_trace G ns n g) = n.
Proof. revert g; induction n as [|n IH]; intros g; simpl; [reflexivity|now rewrite IH]. Qed.

Lemma randint_trace_lt (G : RandomState) ns n g :
  (0 < ns)%nat -> Forall (fun i => (i < ns)%nat) (randint_trace G ns n g).
Proof.
  intros Hns. revert g; induction n as [|n IH]; intros g; simpl; constructor.
  - now apply randint_lt.
  - apply IH.
Qed.

Lemma sag_sim_step a b M reg lr ns nt st s i :
  length b = nt -> (i < ns)%nat -> sag_sim ns nt st s ->
  sag_sim ns nt (sag_next a b M reg lr ns nt st i)
                (sag_spec_step a b M reg lr ns nt s i).
Proof.
  intros Hb Hi (Hwf & Ebeta & Esum & Etab).
  pose proof Hwf as (Hbeta & Hs0 & Hs1 & Hsum).
  assert (Hg : length (np_muls (nth i a 0) (grad_spec b M reg (sag_cur_beta st) i nt))
               = nt) by (rewrite np_muls_length, grad_spec_length; congruence).
  assert (Es : map2 Rplus (sum_stored_gradient st)
                 (map2 Rminus
                    (np_muls (nth i a 0) (grad_spec b M reg (sag_cur_beta st) i nt))
                    (map (item (stored_gradient st) i) (seq 0 nt)))
               = map2 Rplus (map2 Rminus (sp_sum s) (sp_table s i))
                   (np_muls (nth i a 0) (grad_spec b M reg (sp_beta s) i nt))).
  { rewrite map2_plus_minus_swap
      by (rewrite ?length_map, ?length_seq; congruence).
    now rewrite (Etab i Hi), Esum, Ebeta. }
  split; [now apply sag_next_wf|].
  unfold sag_next, sag_spec_step. cbn [sag_cur_beta sum_stored_gradient stored_gradient
    sp_beta sp_sum sp_table item].
  rewrite Es. split; [now rewrite Ebeta|]. split; [reflexivity|].
  intros r Hr. destruct (Nat.eqb_spec r i) as [->|Hne].
  - rewrite <- Ebeta. rewrite <- Hg at 1. apply map_seq_nth.
  - now apply Etab.
Qed.

Lemma sag_loop_refines {G : RandomState} a b M reg lr ns nt :
  length a = ns -> length b = nt -> shape0 M = ns -> shape1 M = nt ->
  (0 < ns)%nat ->
  forall n lo st s (w : world G), sag_sim ns nt st s ->
  exists st',
    for_range (sag_body a b M reg lr ns) lo n st w
    = (Ok st', mk_world (randint_after G ns n (gen w)) (stdout w))
    /\ sag_sim ns nt st'
         (fold_left (sag_spec_step a b M reg lr ns nt) (randint_trace G ns n (gen w)) s).
Proof.
  intros Ha Hb HM0 HM1 Hns. induction n as [|n IH]; intros lo st s w Hsim.
  - exists st. simpl. split; [now destruct w|exact Hsim].
  - simpl. pose proof Hsim as [Hwf _].
    rewrite (bind_ok _ _ _ _ _ (sag_body_ok a b M reg lr ns nt lo st w
                                   Ha Hb HM0 HM1 Hns Hwf)).
    apply (IH (S lo) _ _ (mk_world (snd (randint G ns (gen w))) (stdout w))).
    apply sag_sim_step; auto. now apply randint_lt.
Qed.

Lemma sag_sim_init M : sag_sim (shape0 M) (shape1 M) (sag_init M) (sag_spec_init (shape1 M)).
Proof.
  split; [apply sag_init_wf|]. unfold sag_init, sag_spec_init, np_zeros. simpl.
  repeat split. intros r Hr.
  apply list_eq_nth.
  - now rewrite length_map, length_seq, repeat_length.
  - intros j Hj. rewrite length_map, length_seq in Hj.
    rewrite nth_map_seq by assumption. now rewrite nth_repeat.
Qed.

(** C3: SAG returns the dual vector that the algorithm of section 4.2
    reaches from the zero vector after exactly [numItermax] steps on the
    indices drawn by [randint(ns)], each below [ns]: every step takes
    [a[i] * CoordinateGradient], replaces the contribution stored for [i] in
    the running sum and adds [lr * (1/ns) * sum] to [beta]; the result is the
    last iterate.  With no learning rate given, [lr] is [1 / max(a / reg)]. *)
Theorem sag_entropic_transport_correct {G : RandomState}
    (a b : array) (M : ndarray2) (reg : R) (numItermax : nat) (w : world G) :
  length a = shape0 M -> length b = shape1 M -> (0 < shape0 M)%nat ->
  let ns := shape0 M in
  let nt := shape1 M in
  let samples := randint_trace G ns numItermax (gen w) in
  let w' := mk_world (randint_after G ns numItermax (gen w)) (stdout w) in
  length samples = numItermax
  /\ Forall (fun i => (i < ns)%nat) samples
  /\ (forall lr,
        sag_entropic_transport a b M reg numItermax (Some lr) w
        = (Ok (sp_beta (sag_spec a b M reg lr ns nt samples)), w'))
  /\ (exists m, is_max m (np_divs a reg)
        /\ sag_entropic_transport a b M reg numItermax None w
           = (Ok (sp_beta (sag_spec a b M reg (1 / m) ns nt samples)), w')).
Proof.
  intros Ha Hb Hns ns nt samples w'.
  assert (Hrun : forall lr,
            sag_entropic_transport a b M reg numItermax (Some lr) w
            = (Ok (sp_beta (sag_spec a b M reg lr ns nt samples)), w')
            /\ bind (sag_loop a b M reg lr numItermax)
                    (fun st => ret (sag_cur_beta st)) w
               = (Ok (sp_beta (sag_spec a b M reg lr ns nt samples)), w')).
  { intros lr.
    destruct (sag_loop_refines a b M reg lr ns nt Ha Hb eq_refl eq_refl Hns
                numItermax 0%nat (sag_init M) (sag_spec_init nt) w (sag_sim_init M))
      as [st' [E (_ & Ebeta & _)]].
    assert (E2 : bind (sag_loop a b M reg lr numItermax)
                   (fun st => ret (sag_cur_beta st)) w
                 = (Ok (sp_beta (sag_spec a b M reg lr ns nt samples)), w')).
    { unfold sag_loop. fold ns. rewrite (bind_ok _ _ _ _ _ E).
      unfold ret. now rewrite Ebeta. }
    split; [|exact E2].
    unfold sag_entropic_transport, default_lr. now rewrite bind_lift_ok. }
  split; [apply randint_trace_length|].
  split; [now apply randint_trace_lt|].
  split; [intros lr; apply Hrun|].
  destruct (py_max_ok (np_divs a reg)) as [m [Em Hm]].
  { unfold np_divs. rewrite length_map. lia. }
  exists m. split; [exact Hm|].
  unfold sag_entropic_transport, default_lr. rewrite Em. simpl rbind.
  rewrite bind_lift_ok. apply Hrun.
Qed.

Lemma sag_entropic_transport_correct_witness :
  let samples := randint_trace counter_rng 2 3 0%nat in
  let w' := mk_world (randint_after counter_rng 2 3 0%nat : rng_state counter_rng) [] in
  length samples = 3%nat
  /\ Forall (fun i => (i < 2)%nat) samples
  /\ (forall lr,
        sag_entropic_transport ex_weights ex_weights ex_cost 1 3 (Some lr) ex_world
        = (Ok (sp_beta (sag_spec ex_weights ex_weights ex_cost 1 lr 2 2 samples)), w'))
  /\ (exists m, is_max m (np_divs ex_weights 1)
        /\ sag_entropic_transport ex_weights ex_weights ex_cost 1 3 None ex_world
           = (Ok (sp_beta (sag_spec ex_weights ex_weights ex_cost 1 (1 / m) 2 2 samples)),
              w')).
Proof.
  apply (sag_entropic_transport_correct ex_weights ex_weights ex_cost 1 3 ex_world).
  - reflexivity.
  - reflexivity.
  - simpl; lia.
Defined.

(* ===================================================================== *)
(** ** ASGD (section 4.3) *)
(* ===================================================================== *)

Lemma asgd_next_wf b M reg lr nt k st i :
  length b = nt -> asgd_wf nt st -> asgd_wf nt (asgd_next b M reg lr nt k st i).
Proof.
  intros Hb [Hc Ha]. unfold asgd_wf, asgd_next. simpl.
  assert (H1 : length (map2 Rplus (asgd_cur_beta st)
                 (np_muls (lr / sqrt (INR (k + 1)))
                    (grad_spec b M reg (asgd_cur_beta st) i nt))) = nt).
  { rewrite map2_length; [assumption|].
    rewrite np_muls_length, grad_spec_length; congruence. }
  split; [exact H1|].
  rewrite map2_length; rewrite !np_muls_length; congruence.
Qed.

Lemma asgd_body_ok {G : RandomState} b M reg lr ns nt k st (w : world G) :
  length b = nt -> shape0 M = ns -> shape1 M = nt -> (0 < ns)%nat ->
  asgd_wf nt st ->
  asgd_body b M reg lr ns k st w
  = (Ok (asgd_next b M reg lr nt k st (fst (randint G ns (gen w)))),
     mk_world (snd (randint G ns (gen w))) (stdout w)).
Proof.
  intros Hb HM0 HM1 Hns [Hc Ha].
  pose proof (randint_lt G ns (gen w) Hns) as Hi.
  set (i := fst (randint G ns (gen w))) in *.
  unfold asgd_body.
  rewrite (bind_ok _ _ _ _ _ (np_random_randint_ok ns w Hns)). fold i.
  rewrite (coordinate_grad_semi_dual_eq b M reg _ i nt) by (try assumption; lia).
  rewrite bind_lift_ok.
  fold (grad_spec b M reg (asgd_cur_beta st) i nt).
  unfold np_iadd. rewrite np_iop_same
    by (rewrite np_muls_length, grad_spec_length; congruence).
  rewrite bind_lift_ok.
  unfold np_add. rewrite np_binop_same.
  - rewrite bind_lift_ok. reflexivity.
  - rewrite !np_muls_length, map2_length; [congruence|].
    rewrite np_muls_length, grad_spec_length; congruence.
Qed.

Lemma asgd_loop_refines {G : RandomState} b M reg lr ns nt :
  length b = nt -> shape0 M = ns -> shape1 M = nt -> (0 < ns)%nat ->
  forall n lo st (w : world G), asgd_wf nt st ->
  exists st',
    for_range (asgd_body b M reg lr ns) lo n st w
    = (Ok st', mk_world (randint_after G ns n (gen w)) (stdout w))
    /\ asgd_wf nt st'
    /\ mk_asgd_spec_state (asgd_cur_beta st') (ave_beta st')
       = asgd_spec_run b M reg lr nt (S lo) (randint_trace G ns n (gen w))
           (mk_asgd_spec_state (asgd_cur_beta st) (ave_beta st)).
Proof.
  intros Hb HM0 HM1 Hns. induction n as [|n IH]; intros lo st w Hwf.
  - exists st. simpl. split; [now destruct w|]. now split.
  - simpl.
    rewrite (bind_ok _ _ _ _ _ (asgd_body_ok b M reg lr ns nt lo st w
                                   Hb HM0 HM1 Hns Hwf)).
    destruct (IH (S lo) (asgd_next b M reg lr nt lo st (fst (randint G ns (gen w))))
                (mk_world (snd (randint G ns (gen w))) (stdout w)))
      as [st' [E [Hwf' Es]]].
    { now apply asgd_next_wf. }
    exists st'. split; [exact E|]. split; [exact Hwf'|].
    rewrite Es. unfold asgd_next, asgd_spec_step. simpl.
    now rewrite Nat.add_1_r.
Qed.

(** C4: ASGD returns the running average that the algorithm of section 4.3
    reaches, from [cur_beta] and [ave_beta] zero, after the iterations
    k = 1 .. numItermax on the indices drawn by [randint(ns)]: each adds
    [(lr / sqrt k) * CoordinateGradient] (not weighted by [a[i]]) to
    [cur_beta] and sets [ave_beta] to [(1/k) * cur_beta + (1 - 1/k) * ave_beta];
    the value returned is [ave_beta], not [cur_beta]. *)
Theorem averaged_sgd_entropic_transport_correct {G : RandomState}
    (a b : array) (M : ndarray2) (reg : R) (numItermax : nat) (w : world G) :
  length a = shape0 M -> length b = shape1 M -> (0 < shape0 M)%nat ->
  let ns := shape0 M in
  let nt := shape1 M in
  let samples := randint_trace G ns numItermax (gen w) in
  let w' := mk_world (randint_after G ns numItermax (gen w)) (stdout w) in
  length samples = numItermax
  /\ Forall (fun i => (i < ns)%nat) samples
  /\ (forall lr,
        averaged_sgd_entropic_transport a b M reg numItermax (Some lr) w
        = (Ok (sp_ave (asgd_spec b M reg lr nt samples)), w'))
  /\ (exists m, is_max m (np_divs a reg)
        /\ averaged_sgd_entropic_transport a b M reg numItermax None w
           = (Ok (sp_ave (asgd_spec b M reg (1 / m) nt samples)), w')).
Proof.
  intros Ha Hb Hns ns nt samples w'.
  assert (Hrun : forall lr,
            bind (asgd_loop b M reg lr numItermax)
                 (fun st => ret (ave_beta st)) w
            = (Ok (sp_ave (asgd_spec b M reg lr nt samples)), w')).
  { intros lr.
    destruct (asgd_loop_refines b M reg lr ns nt Hb eq_refl eq_refl Hns
                numItermax 0%nat (asgd_init M) w) as [st' [E [_ Es]]].
    { unfold asgd_wf, asgd_init, np_zeros. simpl. now rewrite repeat_length. }
    unfold asgd_loop. fold ns. rewrite (bind_ok _ _ _ _ _ E).
    pose proof (f_equal sp_ave Es) as Es'. cbn [sp_ave] in Es'.
    unfold ret. rewrite Es'. reflexivity. }
  split; [apply randint_trace_length|].
  split; [now apply randint_trace_lt|].
  split.
  - intros lr. unfold averaged_sgd_entropic_transport, default_lr.
    rewrite bind_lift_ok. apply Hrun.
  - destruct (py_max_ok (np_divs a reg)) as [m [Em Hm]].
    { unfold np_divs. rewrite length_map. lia. }
    exists m. split; [exact Hm|].
    unfold averaged_sgd_entropic_transport, default_lr. rewrite Em. simpl rbind.
    rewrite bind_lift_ok. apply Hrun.
Qed.

Lemma averaged_sgd_entropic_transport_correct_witness :
  let samples := randint_trace counter_rng 2 3 0%nat in
  let w' := mk_world (randint_after counter_rng 2 3 0%nat : rng_state counter_rng) [] in
  length samples = 3%nat
  /\ Forall (fun i => (i < 2)%nat) samples
  /\ (forall lr,
        averaged_sgd_entropic_transport ex_weights ex_weights ex_cost 1 3 (Some lr)
          ex_world
        = (Ok (sp_ave (asgd_spec ex_weights ex_cost 1 lr 2 samples)), w'))
  /\ (exists m, is_max m (np_divs ex_weights 1)
        /\ averaged_sgd_entropic_transport ex_weights ex_weights ex_cost 1 3 None
             ex_world
           = (Ok (sp_ave (asgd_spec ex_weights ex_cost 1 (1 / m) 2 samples)), w')).
Proof.
  apply (averaged_sgd_entropic_transport_correct
           ex_weights ex_weights ex_cost 1 3 ex_world).
  - reflexivity.
  - reflexivity.
  - simpl; lia.
Defined.

(* ===================================================================== *)
(** ** The c-transform (section 4.4) *)
(* ===================================================================== *)

Lemma list_set_length v i x : length (list_set v i x) = length v.
Proof.
  revert i; induction v as [|u v IH]; intros [|i]; simpl; try reflexivity.
  now rewrite IH.
Qed.

Lemma list_set_nth_same v i x :
  (i < length v)%nat -> nth i (list_set v i x) 0 = x.
Proof.
  revert i; induction v as [|u v IH]; intros [|i] H; simpl in *; try lia.
  - reflexivity.
  - apply IH. lia.
Qed.

Lemma list_set_nth_other v i j x :
  i <> j -> nth j (list_set v i x) 0 = nth j v 0.
Proof.
  revert i j; induction v as [|u v IH]; intros [|i] [|j] H; simpl; try reflexivity.
  - lia.
  - apply IH. lia.
Qed.

Lemma setitem_ok v i x :
  (i < length v)%nat -> setitem v i x = Ok (list_set v i x).
Proof. intros H. unfold setitem. apply Nat.ltb_lt in H. now rewrite H. Qed.

Lemma np_min_min_of v : (0 < length v)%nat -> np_min v = Ok (min_of v).
Proof. destruct v; simpl; [lia|reflexivity]. Qed.

Lemma min_of_is_min v : (0 < length v)%nat -> is_min (min_of v) v.
Proof. destruct v; simpl; [lia|]. intros _. apply fold_left_Rmin_is_min. Qed.

Lemma cost_row_eq M beta i nt :
  shape1 M = nt -> length beta = nt ->
  map2 Rminus (map (item M i) (seq 0 (shape1 M))) beta = cost_row M beta i nt.
Proof.
  intros HM Hbeta. unfold cost_row. apply list_eq_nth.
  - rewrite map2_length; rewrite ?length_map, ?length_seq; congruence.
  - intros j Hj.
    rewrite map2_length in Hj by (rewrite length_map, length_seq; congruence).
    rewrite length_map, length_seq, HM in Hj.
    rewrite map2_nth by (rewrite length_map, length_seq; congruence).
    rewrite HM, !nth_map_seq by assumption. reflexivity.
Qed.

Lemma c_transform_body_ok b M reg beta i alpha nt :
  length b = nt -> shape1 M = nt -> length beta = nt -> (0 < nt)%nat ->
  (i < shape0 M)%nat -> (i < length alpha)%nat ->
  c_transform_body b M reg beta i alpha
  = Ok (list_set alpha i (c_transform_entry b M reg beta i nt)).
Proof.
  intros Hb HM Hbeta Hnt Hi Hia. unfold c_transform_body.
  rewrite getrow_ok by assumption. cbn [rbind].
  unfold np_sub. rewrite np_binop_same by (rewrite length_map, length_seq; congruence).
  cbn [rbind]. rewrite (cost_row_eq M beta i nt) by assumption.
  assert (Hr : length (cost_row M beta i nt) = nt)
    by (unfold cost_row; now rewrite length_map, length_seq).
  rewrite np_min_min_of by lia. cbn [rbind].
  unfold np_mul, np_exp, np_divs, np_neg, np_subs.
  rewrite np_binop_same by (rewrite !length_map; congruence).
  cbn [rbind].
  assert (Hw : map2 Rmult
                 (map exp (map (fun u => u / reg) (map Ropp
                    (map (fun u => u - min_of (cost_row M beta i nt))
                         (cost_row M beta i nt))))) b
               = shifted_weights b M reg beta i nt (min_of (cost_row M beta i nt))).
  { apply list_eq_nth.
    - rewrite map2_length by (rewrite !length_map; congruence).
      rewrite !length_map. unfold shifted_weights.
      now rewrite Hr, length_map, length_seq.
    - intros j Hj.
      rewrite map2_length in Hj by (rewrite !length_map; congruence).
      rewrite !length_map, Hr in Hj.
      rewrite map2_nth by (rewrite !length_map; congruence).
      rewrite !nth_map_R by (rewrite ?length_map; lia).
      unfold shifted_weights, cost_row. rewrite !nth_map_seq by assumption.
      reflexivity. }
  rewrite Hw. rewrite setitem_ok by assumption. reflexivity.
Qed.

Lemma c_transform_loop_ok b M reg beta nt :
  length b = nt -> shape1 M = nt -> length beta = nt -> (0 < nt)%nat ->
  forall n lo alpha,
  (lo + n <= shape0 M)%nat -> length alpha = shape0 M ->
  exists alpha',
    rfor_range (c_transform_body b M reg beta) lo n alpha = Ok alpha'
    /\ length alpha' = shape0 M
    /\ (forall i, (lo <= i < lo + n)%nat ->
          nth i alpha' 0 = c_transform_entry b M reg beta i nt)
    /\ (forall i, (i < lo)%nat -> nth i alpha' 0 = nth i alpha 0).
Proof.
  intros Hb HM Hbeta Hnt. induction n as [|n IH]; intros lo alpha Hlo Hlen.
  - exists alpha. simpl. repeat split; [assumption|lia].
  - simpl. rewrite (c_transform_body_ok b M reg beta lo alpha nt) by (try assumption; lia).
    cbn [rbind].
    destruct (IH (S lo) (list_set alpha lo (c_transform_entry b M reg beta lo nt)))
      as [alpha' [E [Hl [Hin Hout]]]].
    { lia. } { now rewrite list_set_length. }
    exists alpha'. split; [exact E|]. split; [exact Hl|]. split.
    + intros i Hi. destruct (Nat.eq_dec i lo) as [->|Hne].
      * rewrite Hout by lia. apply list_set_nth_same. lia.
      * apply Hin. lia.
    + intros i Hi. rewrite Hout by lia. apply list_set_nth_other. lia.
Qed.

Lemma np_sum_map_scal (c : R) (f : nat -> R) (l : list nat) :
  np_sum (map (fun j => c * f j) l) = c * np_sum (map f l).
Proof.
  unfold np_sum. induction l as [|j l IH]; simpl; [ring|]. rewrite IH. ring.
Qed.

(** The shift by [min_r] (or by any number) cancels in exact arithmetic. *)
Lemma log_sum_exp_shift b M reg beta i nt m :
  reg <> 0 -> 0 < np_sum (gibbs_weights b M reg beta i nt) ->
  m - reg * ln (np_sum (shifted_weights b M reg beta i nt m))
  = - reg * ln (np_sum (gibbs_weights b M reg beta i nt)).
Proof.
  intros Hreg Hpos.
  assert (E : shifted_weights b M reg beta i nt m
              = map (fun j => exp (m / reg)
                              * (exp (- (item M i j - nth j beta 0) / reg) * nth j b 0))
                    (seq 0 nt)).
  { unfold shifted_weights. apply map_ext. intros j.
    rewrite <- Rmult_assoc, <- exp_plus. f_equal. f_equal. now field. }
  rewrite E, np_sum_map_scal. fold (gibbs_weights b M reg beta i nt).
  rewrite ln_mult by (try apply exp_pos; assumption).
  rewrite ln_exp. now field.
Qed.

(** C5: for well-shaped arguments with at least one target, the c-transform
    returns a vector of length [ns] whose entry [i] is
    [min_r - reg * log(sum(exp(-(r - min_r)/reg) * b))] with [r = M[i,:] - beta]
    and [min_r] the smallest entry of [r]; when the unshifted weighted sum is
    positive (and [reg] is not zero) this equals
    [- reg * log(sum(exp(-r/reg) * b))]. *)
Theorem c_transform_entropic_correct
    (b : array) (M : ndarray2) (reg : R) (beta : array) (nt : nat) :
  length b = nt -> shape1 M = nt -> length beta = nt -> (0 < nt)%nat ->
  exists alpha,
    c_transform_entropic b M reg beta = Ok alpha
    /\ length alpha = shape0 M
    /\ forall i, (i < shape0 M)%nat ->
         exists min_r,
           is_min min_r (cost_row M beta i nt)
           /\ nth i alpha 0
              = min_r - reg * ln (np_sum (shifted_weights b M reg beta i nt min_r))
           /\ (reg <> 0 -> Forall (Rle 0) b ->
               0 < np_sum (gibbs_weights b M reg beta i nt) ->
               nth i alpha 0
               = - reg * ln (np_sum (gibbs_weights b M reg beta i nt))).
Proof.
  intros Hb HM Hbeta Hnt.
  destruct (c_transform_loop_ok b M reg beta nt Hb HM Hbeta Hnt
              (shape0 M) 0%nat (np_zeros (shape0 M)))
    as [alpha [E [Hl [Hin _]]]].
  { lia. } { unfold np_zeros. apply repeat_length. }
  exists alpha. split; [exact E|]. split; [exact Hl|].
  intros i Hi. exists (min_of (cost_row M beta i nt)).
  assert (Hv : nth i alpha 0 = c_transform_entry b M reg beta i nt)
    by (apply Hin; lia).
  split; [|split].
  - apply min_of_is_min. unfold cost_row. rewrite length_map, length_seq. lia.
  - exact Hv.
  - intros Hreg _ Hpos. rewrite Hv. unfold c_transform_entry.
    now apply log_sum_exp_shift.
Qed.

Lemma c_transform_entropic_correct_witness :
  exists alpha,
    c_transform_entropic ex_weights ex_cost 1 [0; 0] = Ok alpha
    /\ length alpha = 2%nat
    /\ nth 0 alpha 0
       = - 1 * ln (np_sum (gibbs_weights ex_weights ex_cost 1 [0; 0] 0 2)).
Proof.
  destruct (c_transform_entropic_correct ex_weights ex_cost 1 [0; 0] 2)
    as [alpha [E [Hl Hi]]]; try reflexivity; try lia.
  exists alpha. split; [exact E|]. split; [exact Hl|].
  destruct (Hi 0%nat) as [min_r [_ [_ H]]]; [simpl; lia|].
  apply H.
  - lra.
  - unfold ex_weights. repeat constructor; lra.
  - unfold gibbs_weights, ex_weights. simpl.
    pose proof (exp_pos (- (0 - 0) / 1)). pose proof (exp_pos (- (1 - 0) / 1)). lra.
Defined.

(* ===================================================================== *)
(** ** The semi-dual orchestrator: choice of the method (section 4.5) *)
(* ===================================================================== *)

Lemma ascii_lower_idem c : ascii_lower (ascii_lower c) = ascii_lower c.
Proof. destruct c as [[] [] [] [] [] [] [] []]; reflexivity. Qed.

Lemma ascii_lower_upper c : ascii_lower (ascii_upper c) = ascii_lower c.
Proof. destruct c as [[] [] [] [] [] [] [] []]; reflexivity. Qed.

Lemma ascii_upper_lower c : ascii_upper (ascii_lower c) = ascii_upper c.
Proof. destruct c as [[] [] [] [] [] [] [] []]; reflexivity. Qed.

Lemma ascii_lower_or_upper c : c = ascii_lower c \/ c = ascii_upper (ascii_lower c).
Proof.
  destruct c as [[] [] [] [] [] [] [] []];
    first [left; reflexivity | right; reflexivity].
Qed.

Lemma ascii_lower_eq c d :
  ascii_lower c = ascii_lower d -> c = ascii_lower d \/ c = ascii_upper d.
Proof.
  intros H. destruct (ascii_lower_or_upper c) as [E|E]; rewrite H in E.
  - now left.
  - right. now rewrite ascii_upper_lower in E.
Qed.

Lemma casings_lower s m : In m (casings s) <-> lower m = lower s.
Proof.
  revert m. induction s as [|c t IH]; intros m; simpl.
  - split.
    + intros [<-|[]]. reflexivity.
    + destruct m; simpl; [now left|discriminate].
  - rewrite in_flat_map. split.
    + intros [r [Hr Hm]]. apply IH in Hr. simpl in Hm.
      destruct Hm as [<-|[<-|[]]]; simpl; rewrite Hr.
      * now rewrite ascii_lower_idem.
      * now rewrite ascii_lower_upper.
    + destruct m as [|c' r]; simpl; [discriminate|].
      intros H. injection H as Hc Hr.
      exists r. split; [now apply IH|].
      destruct (ascii_lower_eq _ _ Hc) as [->| ->]; simpl; auto.
Qed.

Example casings_sag :
  casings "sag"
  = ["sag"; "Sag"; "sAg"; "SAg"; "saG"; "SaG"; "sAG"; "SAG"]%string.
Proof. reflexivity. Qed.

(** C6: every way of casing "sag" runs SAG and every way of casing "asgd"
    runs ASGD, each followed by the c-transform and the reconstruction of
    the plan; any other method string does not raise: it prints the message
    and returns [None], whatever the [log] flag. *)
Theorem solve_semi_dual_entropic_dispatch {G : RandomState}
    (a b : array) (M : ndarray2) (reg : R) (method : string)
    (numItermax : nat) (lr : option R) (log : bool) :
  (In method (casings "sag") ->
   solve_semi_dual_entropic (G := G) a b M reg method numItermax lr log
   = bind (sag_entropic_transport a b M reg numItermax lr)
          (fun opt_beta => lift (semi_dual_finish a b M reg opt_beta log)))
  /\ (In method (casings "asgd") ->
      solve_semi_dual_entropic (G := G) a b M reg method numItermax lr log
      = bind (averaged_sgd_entropic_transport a b M reg numItermax lr)
             (fun opt_beta => lift (semi_dual_finish a b M reg opt_beta log)))
  /\ (~ In method (casings "sag") -> ~ In method (casings "asgd") ->
      forall w : world G,
        solve_semi_dual_entropic a b M reg method numItermax lr log w
        = (Ok RNone,
           mk_world (gen w)
             (stdout w ++ ["Please, select your method between SAG and ASGD"%string]))).
Proof.
  unfold solve_semi_dual_entropic. split; [|split].
  - intros H. apply casings_lower in H. simpl in H. now rewrite H.
  - intros H. apply casings_lower in H. simpl in H. now rewrite H.
  - intros H1 H2 w.
    destruct (String.eqb_spec (lower method) "sag") as [E|_].
    { exfalso. apply H1. now apply casings_lower. }
    destruct (String.eqb_spec (lower method) "asgd") as [E|_].
    { exfalso. apply H2. now apply casings_lower. }
    reflexivity.
Qed.

Lemma solve_semi_dual_entropic_dispatch_witness :
  solve_semi_dual_entropic (G := counter_rng)
    ex_weights ex_weights ex_cost 1 "SaG" 3 None true
  = bind (sag_entropic_transport ex_weights ex_weights ex_cost 1 3 None)
         (fun opt_beta => lift (semi_dual_finish ex_weights ex_weights ex_cost 1
                                  opt_beta true))
  /\ solve_semi_dual_entropic ex_weights ex_weights ex_cost 1 "sinkhorn" 3 None true
       ex_world
     = (Ok RNone,
        mk_world (gen ex_world)
          (stdout ex_world ++ ["Please, select your method between SAG and ASGD"%string])).
Proof.
  split.
  - apply (solve_semi_dual_entropic_dispatch (G := counter_rng)
             ex_weights ex_weights ex_cost 1 "SaG" 3 None true).
    simpl. tauto.
  - apply (solve_semi_dual_entropic_dispatch (G := counter_rng)
             ex_weights ex_weights ex_cost 1 "sinkhorn" 3 None true).
    + intros H. simpl in H. repeat (destruct H as [H|H]; [discriminate H|]). exact H.
    + intros H. simpl in H. repeat (destruct H as [H|H]; [discriminate H|]). exact H.
Defined.

(* ===================================================================== *)
(** ** Batch gradients of the dual (section 4.6) *)
(* ===================================================================== *)

Lemma take_ok v idx :
  Forall (fun i => (i < length v)%nat) idx ->
  take v idx = Ok (map (fun i => nth i v 0) idx).
Proof.
  induction 1 as [|i idx Hi _ IH]; simpl; [reflexivity|].
  rewrite getitem_ok by assumption. cbn [rbind]. rewrite IH. reflexivity.
Qed.

Lemma getitem2_ok M i j :
  (i < shape0 M)%nat -> (j < shape1 M)%nat -> getitem2 M i j = Ok (item M i j).
Proof.
  intros Hi Hj. unfold getitem2.
  apply Nat.ltb_lt in Hi, Hj. now rewrite Hi, Hj.
Qed.

Lemma take_col_ok M idx j :
  Forall (fun i => (i < shape0 M)%nat) idx -> (j < shape1 M)%nat ->
  take_col M idx j = Ok (map (fun i => item M i j) idx).
Proof.
  intros H Hj. induction H as [|i idx Hi _ IH]; simpl.
  - apply Nat.ltb_lt in Hj. now rewrite Hj.
  - rewrite getitem2_ok by assumption. cbn [rbind]. rewrite IH. reflexivity.
Qed.

Lemma take_row_ok M i idx :
  (i < shape0 M)%nat -> Forall (fun j => (j < shape1 M)%nat) idx ->
  take_row M i idx = Ok (map (fun j => item M i j) idx).
Proof.
  intros Hi H. induction H as [|j idx Hj _ IH]; simpl.
  - apply Nat.ltb_lt in Hi. now rewrite Hi.
  - rewrite getitem2_ok by assumption. cbn [rbind]. rewrite IH. reflexivity.
Qed.

Lemma map2_map_map (f : R -> R -> R) (g h : nat -> R) (l : list nat) :
  map2 f (map g l) (map h l) = map (fun x => f (g x) (h x)) l.
Proof. induction l as [|x l IH]; simpl; [reflexivity|now rewrite IH]. Qed.

Lemma nth_map_nat (F : nat -> R) (l : list nat) p :
  (p < length l)%nat -> nth p (map F l) 0 = F (nth p l 0%nat).
Proof.
  intros Hp. rewrite (nth_indep _ 0 (F 0%nat)) by (now rewrite length_map).
  apply map_nth.
Qed.

(** A loop that subtracts, for each [x] of [l], the vector [F x] over the
    batch [idx], leaves at position [p] the start value minus the sum of the
    [F x (idx[p])]. *)
Lemma rfor_each_subtract (body : nat -> array -> res array)
    (F : nat -> nat -> R) (idx : list nat) (bs : nat) (Q : nat -> Prop) :
  length idx = bs ->
  (forall x grad, Q x -> length grad = bs ->
     body x grad = Ok (map2 Rminus grad (map (F x) idx))) ->
  forall l grad, Forall Q l -> length grad = bs ->
  exists grad',
    rfor_each body l grad = Ok grad'
    /\ length grad' = bs
    /\ forall p, (p < bs)%nat ->
         nth p grad' 0
         = nth p grad 0 - np_sum (map (fun x => F x (nth p idx 0%nat)) l).
Proof.
  intros Hidx Hbody. induction l as [|x l IH]; intros grad HQ Hg.
  - exists grad. simpl. repeat split; [assumption|]. intros p _. unfold np_sum. simpl. ring.
  - inversion HQ as [|? ? Hx Hl]; subst. simpl.
    rewrite (Hbody x grad Hx Hg). cbn [rbind].
    destruct (IH (map2 Rminus grad (map (F x) idx)) Hl) as [grad' [E [Hl' Hp]]].
    { rewrite map2_length; rewrite ?length_map; congruence. }
    exists grad'. split; [exact E|]. split; [exact Hl'|].
    intros p Hpb. rewrite (Hp p Hpb).
    rewrite map2_nth by (rewrite ?length_map; lia).
    rewrite nth_map_nat by lia.
    unfold np_sum. simpl. ring.
Qed.

Lemma np_fill_zeros_length n c : length (np_fill (np_zeros n) c) = n.
Proof. unfold np_fill, np_zeros. now rewrite length_map, repeat_length. Qed.

Lemma np_fill_zeros_nth n c p : (p < n)%nat -> nth p (np_fill (np_zeros n) c) 0 = c.
Proof.
  intros Hp. unfold np_fill, np_zeros.
  rewrite (nth_indep _ 0 ((fun _ : R => c) 0)) by (now rewrite length_map, repeat_length).
  now rewrite (map_nth (fun _ : R => c)).
Qed.

Lemma batch_grad_dual_alpha_ok M reg alpha beta batch_size batch_alpha batch_beta :
  length batch_alpha = batch_size ->
  Forall (fun i => (i < length alpha)%nat /\ (i < shape0 M)%nat) batch_alpha ->
  Forall (fun j => (j < length beta)%nat /\ (j < shape1 M)%nat) batch_beta ->
  exists grad,
    batch_grad_dual_alpha M reg alpha beta batch_size batch_alpha batch_beta = Ok grad
    /\ length grad = batch_size
    /\ forall p, (p < batch_size)%nat ->
         nth p grad 0
         = INR batch_size
           - np_sum (map (fun j =>
                 exp ((nth (nth p batch_alpha 0%nat) alpha 0 + nth j beta 0
                       - item M (nth p batch_alpha 0%nat) j) / reg)) batch_beta).
Proof.
  intros Hla Ha Hb. unfold batch_grad_dual_alpha.
  destruct (rfor_each_subtract
              (fun j grad_alpha =>
                 (t <- take alpha batch_alpha ;;
                  bj <- getitem beta j ;;
                  m <- take_col M batch_alpha j ;;
                  d <- np_sub (np_adds t bj) m ;;
                  np_isub grad_alpha (np_exp (np_divs d reg)))%res)
              (fun j i => exp ((nth i alpha 0 + nth j beta 0 - item M i j) / reg))
              batch_alpha batch_size
              (fun j => (j < length beta)%nat /\ (j < shape1 M)%nat)
              Hla)
    with (l := batch_beta) (grad := np_fill (np_zeros batch_size) (INR batch_size))
    as [grad [E [Hl Hp]]].
  - intros j grad [Hj1 Hj2] Hg.
    rewrite take_ok by (eapply Forall_impl; [|exact Ha]; simpl; tauto).
    cbn [rbind]. rewrite getitem_ok by assumption. cbn [rbind].
    rewrite take_col_ok
      by (first [assumption | eapply Forall_impl; [|exact Ha]; simpl; tauto]).
    cbn [rbind]. unfold np_sub, np_adds. rewrite map_map.
    rewrite np_binop_same by (now rewrite !length_map).
    cbn [rbind]. rewrite map2_map_map.
    unfold np_isub, np_exp, np_divs. rewrite !map_map.
    rewrite np_iop_same by (rewrite length_map; congruence).
    reflexivity.
  - exact Hb.
  - apply np_fill_zeros_length.
  - exists grad. split; [exact E|]. split; [exact Hl|].
    intros p Hpb. rewrite (Hp p Hpb), np_fill_zeros_nth by assumption. reflexivity.
Qed.

Lemma batch_grad_dual_beta_ok M reg alpha beta batch_size batch_alpha batch_beta :
  length batch_beta = batch_size ->
  Forall (fun i => (i < length alpha)%nat /\ (i < shape0 M)%nat) batch_alpha ->
  Forall (fun j => (j < length beta)%nat /\ (j < shape1 M)%nat) batch_beta ->
  exists grad,
    batch_grad_dual_beta M reg alpha beta batch_size batch_alpha batch_beta = Ok grad
    /\ length grad = batch_size
    /\ forall p, (p < batch_size)%nat ->
         nth p grad 0
         = INR batch_size
           - np_sum (map (fun i =>
                 exp ((nth i alpha 0 + nth (nth p batch_beta 0%nat) beta 0
                       - item M i (nth p batch_beta 0%nat)) / reg)) batch_alpha).
Proof.
  intros Hlb Ha Hb. unfold batch_grad_dual_beta.
  destruct (rfor_each_subtract
              (fun i grad_beta =>
                 (ai <- getitem alpha i ;;
                  t <- take beta batch_beta ;;
                  m <- take_row M i batch_beta ;;
                  d <- np_sub (np_sadd ai t) m ;;
                  np_isub grad_beta (np_exp (np_divs d reg)))%res)
              (fun i j => exp ((nth i alpha 0 + nth j beta 0 - item M i j) / reg))
              batch_beta batch_size
              (fun i => (i < length alpha)%nat /\ (i < shape0 M)%nat)
              Hlb)
    with (l := batch_alpha) (grad := np_fill (np_zeros batch_size) (INR batch_size))
    as [grad [E [Hl Hp]]].
  - intros i grad [Hi1 Hi2] Hg.
    rewrite getitem_ok by assumption. cbn [rbind].
    rewrite take_ok by (eapply Forall_impl; [|exact Hb]; simpl; tauto).
    cbn [rbind].
    rewrite take_row_ok
      by (first [assumption | eapply Forall_impl; [|exact Hb]; simpl; tauto]).
    cbn [rbind]. unfold np_sub, np_sadd. rewrite map_map.
    rewrite np_binop_same by (now rewrite !length_map).
    cbn [rbind]. rewrite map2_map_map.
    unfold np_isub, np_exp, np_divs. rewrite !map_map.
    rewrite np_iop_same by (rewrite length_map; congruence).
    reflexivity.
  - exact Ha.
  - apply np_fill_zeros_length.
  - exists grad. split; [exact E|]. split; [exact Hl|].
    intros p Hpb. rewrite (Hp p Hpb), np_fill_zeros_nth by assumption. reflexivity.
Qed.

(** C7: for batches of [batch_size] valid indices, the alpha variant returns
    a vector of length [batch_size] whose entry [p] is [batch_size] minus the
    sum over [j] in [batch_beta] of
    [exp((alpha[batch_alpha[p]] + beta[j] - M[batch_alpha[p], j]) / reg)];
    the beta variant is its mirror, with the sum over [i] in [batch_alpha]
    at the column [batch_beta[p]]. *)
Theorem batch_grad_dual_correct
    (M : ndarray2) (reg : R) (alpha beta : array) (batch_size : nat)
    (batch_alpha batch_beta : list nat) :
  length batch_alpha = batch_size -> length batch_beta = batch_size ->
  Forall (fun i => (i < length alpha)%nat /\ (i < shape0 M)%nat) batch_alpha ->
  Forall (fun j => (j < length beta)%nat /\ (j < shape1 M)%nat) batch_beta ->
  (exists grad,
     batch_grad_dual_alpha M reg alpha beta batch_size batch_alpha batch_beta = Ok grad
     /\ length grad = batch_size
     /\ forall p, (p < batch_size)%nat ->
          nth p grad 0
          = INR batch_size
            - np_sum (map (fun j =>
                  exp ((nth (nth p batch_alpha 0%nat) alpha 0 + nth j beta 0
                        - item M (nth p batch_alpha 0%nat) j) / reg)) batch_beta))
  /\ (exists grad,
        batch_grad_dual_beta M reg alpha beta batch_size batch_alpha batch_beta = Ok grad
        /\ length grad = batch_size
        /\ forall p, (p < batch_size)%nat ->
             nth p grad 0
             = INR batch_size
               - np_sum (map (fun i =>
                     exp ((nth i alpha 0 + nth (nth p batch_beta 0%nat) beta 0
                           - item M i (nth p batch_beta 0%nat)) / reg)) batch_alpha)).
Proof.
  intros Hla Hlb Ha Hb. split.
  - now apply batch_grad_dual_alpha_ok.
  - now apply batch_grad_dual_beta_ok.
Qed.

Lemma batch_grad_dual_correct_witness :
  (exists grad,
     batch_grad_dual_alpha ex_cost 1 [0; 0] [0; 0] 2 [0; 1]%nat [1; 0]%nat = Ok grad
     /\ length grad = 2%nat
     /\ forall p, (p < 2)%nat ->
          nth p grad 0
          = INR 2
            - np_sum (map (fun j =>
                  exp ((nth (nth p [0; 1]%nat 0%nat) [0; 0] 0 + nth j [0; 0] 0
                        - item ex_cost (nth p [0; 1]%nat 0%nat) j) / 1)) [1; 0]%nat))
  /\ (exists grad,
        batch_grad_dual_beta ex_cost 1 [0; 0] [0; 0] 2 [0; 1]%nat [1; 0]%nat = Ok grad
        /\ length grad = 2%nat
        /\ forall p, (p < 2)%nat ->
             nth p grad 0
             = INR 2
               - np_sum (map (fun i =>
                     exp ((nth i [0; 0] 0 + nth (nth p [1; 0]%nat 0%nat) [0; 0] 0
                           - item ex_cost i (nth p [1; 0]%nat 0%nat)) / 1)) [0; 1]%nat)).
Proof.
  apply (batch_grad_dual_correct ex_cost 1 [0; 0] [0; 0] 2 [0; 1]%nat [1; 0]%nat).
  - reflexivity.
  - reflexivity.
  - repeat constructor; simpl; lia.
  - repeat constructor; simpl; lia.
Defined.

(* ===================================================================== *)
(** ** The dual SGD solver (section 4.7) *)
(* ===================================================================== *)

Lemma index_of_None q idx : ~ In q idx -> index_of q idx = None.
Proof.
  induction idx as [|i idx IH]; simpl; intros H; [reflexivity|].
  destruct (Nat.eqb_spec q i) as [->|_]; [exfalso; apply H; now left|].
  rewrite IH; [reflexivity|]. intros Hin. apply H. now right.
Qed.

Lemma index_of_Some q idx p :
  index_of q idx = Some p -> (p < length idx)%nat /\ nth p idx 0%nat = q.
Proof.
  revert p. induction idx as [|i idx IH]; simpl; intros p H; [discriminate|].
  destruct (Nat.eqb_spec q i) as [->|_].
  - injection H as <-. split; [lia|reflexivity].
  - destruct (index_of q idx) as [p'|]; simpl in H; [|discriminate].
    injection H as <-. destruct (IH p' eq_refl) as [H1 H2]. split; [lia|exact H2].
Qed.

Lemma put_ok idx : forall vals v,
  NoDup idx -> Forall (fun i => (i < length v)%nat) idx -> length vals = length idx ->
  exists v',
    put v idx vals = Ok v'
    /\ length v' = length v
    /\ forall q, nth q v' 0 = match index_of q idx with
                              | Some p => nth p vals 0
                              | None => nth q v 0
                              end.
Proof.
  induction idx as [|i idx IH]; intros vals v Hnd Hlt Hlen.
  - exists v. destruct vals; simpl; repeat split; reflexivity.
  - destruct vals as [|x xs]; [simpl in Hlen; lia|].
    inversion Hnd as [|? ? Hni Hnd']; subst.
    inversion Hlt as [|? ? Hi Hlt']; subst.
    simpl. rewrite setitem_ok by assumption. cbn [rbind].
    destruct (IH xs (list_set v i x) Hnd') as [v' [E [Hl Hq]]].
    { eapply Forall_impl; [|exact Hlt']. intros j Hj. now rewrite list_set_length. }
    { simpl in Hlen. lia. }
    exists v'. split; [exact E|]. split; [now rewrite Hl, list_set_length|].
    intros q. rewrite Hq. destruct (Nat.eqb_spec q i) as [->|Hne].
    + rewrite (index_of_None i idx Hni). now apply list_set_nth_same.
    + destruct (index_of q idx) as [p|]; simpl; [reflexivity|].
      apply list_set_nth_other. congruence.
Qed.

Lemma iadd_at_ok v idx w :
  NoDup idx -> Forall (fun i => (i < length v)%nat) idx -> length w = length idx ->
  iadd_at v idx w = Ok (add_at_spec v idx w).
Proof.
  intros Hnd Hlt Hlen. unfold iadd_at.
  rewrite take_ok by assumption. cbn [rbind].
  unfold np_iadd. rewrite np_iop_same by (rewrite length_map; congruence).
  cbn [rbind].
  destruct (put_ok idx (map2 Rplus (map (fun i => nth i v 0) idx) w) v Hnd Hlt)
    as [v' [E [Hl Hq]]].
  { rewrite map2_length; rewrite length_map; congruence. }
  rewrite E. f_equal. unfold add_at_spec. apply list_eq_nth.
  - now rewrite length_map, length_seq.
  - intros q Hqlt. rewrite Hl in Hqlt.
    rewrite nth_map_seq by assumption. rewrite Hq.
    destruct (index_of q idx) as [p|] eqn:Ep; [|reflexivity].
    destruct (index_of_Some _ _ _ Ep) as [Hp Hnth].
    rewrite map2_nth by (rewrite length_map; lia).
    rewrite nth_map_nat by assumption. now rewrite Hnth.
Qed.

Lemma add_at_spec_length v idx w : length (add_at_spec v idx w) = length v.
Proof. unfold add_at_spec. now rewrite length_map, length_seq. Qed.

Lemma batch_grad_dual_alpha_eq M reg alpha beta batch_size batch_alpha batch_beta :
  length batch_alpha = batch_size ->
  Forall (fun i => (i < length alpha)%nat /\ (i < shape0 M)%nat) batch_alpha ->
  Forall (fun j => (j < length beta)%nat /\ (j < shape1 M)%nat) batch_beta ->
  batch_grad_dual_alpha M reg alpha beta batch_size batch_alpha batch_beta
  = Ok (dual_grad_alpha_spec M reg alpha beta batch_size batch_alpha batch_beta).
Proof.
  intros Hla Ha Hb.
  destruct (batch_grad_dual_alpha_ok M reg alpha beta batch_size batch_alpha batch_beta
              Hla Ha Hb) as [grad [E [Hl Hp]]].
  rewrite E. f_equal. unfold dual_grad_alpha_spec. apply list_eq_nth.
  - rewrite length_map. congruence.
  - intros p Hpl. rewrite Hl in Hpl. rewrite (Hp p Hpl).
    now rewrite nth_map_nat by lia.
Qed.

Lemma batch_grad_dual_beta_eq M reg alpha beta batch_size batch_alpha batch_beta :
  length batch_beta = batch_size ->
  Forall (fun i => (i < length alpha)%nat /\ (i < shape0 M)%nat) batch_alpha ->
  Forall (fun j => (j < length beta)%nat /\ (j < shape1 M)%nat) batch_beta ->
  batch_grad_dual_beta M reg alpha beta batch_size batch_alpha batch_beta
  = Ok (dual_grad_beta_spec M reg alpha beta batch_size batch_alpha batch_beta).
Proof.
  intros Hlb Ha Hb.
  destruct (batch_grad_dual_beta_ok M reg alpha beta batch_size batch_alpha batch_beta
              Hlb Ha Hb) as [grad [E [Hl Hp]]].
  rewrite E. f_equal. unfold dual_grad_beta_spec. apply list_eq_nth.
  - rewrite length_map. congruence.
  - intros p Hpl. rewrite Hl in Hpl. rewrite (Hp p Hpl).
    now rewrite nth_map_nat by lia.
Qed.

Lemma np_random_choice_ok {G : RandomState} n size (w : world G) :
  (0 < n)%nat -> (size <= n)%nat ->
  np_random_choice n size w
  = (Ok (fst (choice G n size (gen w))),
     mk_world (snd (choice G n size (gen w))) (stdout w)).
Proof.
  intros Hn Hs. unfold np_random_choice.
  destruct (Nat.eqb_spec n 0) as [->|_]; [lia|].
  destruct (Nat.ltb_spec n size) as [|_]; [lia|].
  simpl. now destruct (choice G n size (gen w)).
Qed.

Lemma choice_valid (G : RandomState) n size g :
  (size <= n)%nat -> valid_batch n size (fst (choice G n size g)).
Proof.
  intros H. split; [now apply choice_length|].
  split; [now apply choice_NoDup|now apply choice_lt].
Qed.

Lemma valid_batch_indices n size l (v : array) M0 :
  valid_batch n size l -> length v = n -> M0 = n ->
  Forall (fun i => (i < length v)%nat /\ (i < M0)%nat) l.
Proof.
  intros (_ & _ & Hlt) Hv HM. eapply Forall_impl; [|exact Hlt].
  simpl. intros i Hi. lia.
Qed.

Lemma valid_batch_lt n size l (v : array) :
  valid_batch n size l -> length v = n -> Forall (fun i => (i < length v)%nat) l.
Proof.
  intros (_ & _ & Hlt) Hv. eapply Forall_impl; [|exact Hlt].
  simpl. intros i Hi. lia.
Qed.

Lemma sgd_body_ok {G : RandomState} (alternate : bool) M reg bs lr ns nt k st
    (w : world G) :
  shape0 M = ns -> shape1 M = nt -> (0 < ns)%nat -> (0 < nt)%nat ->
  (bs <= ns)%nat -> (bs <= nt)%nat ->
  length (sgd_cur_alpha st) = ns -> length (sgd_cur_beta st) = nt ->
  let ba := choice G ns bs (gen w) in
  let bb := choice G nt bs (snd ba) in
  let s' := dual_spec_step alternate M reg bs lr (k + 1)
              (sgd_cur_alpha st, sgd_cur_beta st) (fst ba, fst bb) in
  (if alternate then sgd_body_alternate M reg bs lr ns nt k st w
   else sgd_body_joint M reg bs lr ns nt k st w)
  = (Ok (mk_sgd_state (fst s') (snd s')), mk_world (snd bb) (stdout w)).
Proof.
  intros HM0 HM1 Hns Hnt Hbs Hbt Hla Hlb ba bb s'.
  pose proof (choice_valid G ns bs (gen w) Hbs) as Va. fold ba in Va.
  pose proof (choice_valid G nt bs (snd ba) Hbt) as Vb. fold bb in Vb.
  pose proof Va as (Ea & Nda & _). pose proof Vb as (Eb & Ndb & _).
  pose proof (valid_batch_indices _ _ _ (sgd_cur_alpha st) (shape0 M) Va Hla HM0) as Ia.
  pose proof (valid_batch_indices _ _ _ (sgd_cur_beta st) (shape1 M) Vb Hlb HM1) as Ib.
  destruct alternate; subst s'; cbn [dual_spec_step fst snd].
  - unfold sgd_body_alternate.
    rewrite (bind_ok _ _ _ _ _ (np_random_choice_ok ns bs w Hns Hbs)). fold ba.
    rewrite (bind_ok _ _ _ _ _
               (np_random_choice_ok nt bs (mk_world (snd ba) (stdout w)) Hnt Hbt)).
    cbn [gen stdout]. fold bb.
    rewrite batch_grad_dual_alpha_eq by assumption. rewrite bind_lift_ok.
    rewrite iadd_at_ok;
      [| assumption | now apply (valid_batch_lt ns bs)
       | unfold dual_grad_alpha_spec; now rewrite np_muls_length, length_map].
    rewrite bind_lift_ok.
    rewrite batch_grad_dual_beta_eq;
      [| assumption
       | apply (valid_batch_indices ns bs); auto; now rewrite add_at_spec_length
       | assumption].
    rewrite bind_lift_ok.
    rewrite iadd_at_ok;
      [| assumption | now apply (valid_batch_lt nt bs)
       | unfold dual_grad_beta_spec; now rewrite np_muls_length, length_map].
    rewrite bind_lift_ok. reflexivity.
  - unfold sgd_body_joint.
    rewrite (bind_ok _ _ _ _ _ (np_random_choice_ok ns bs w Hns Hbs)). fold ba.
    rewrite (bind_ok _ _ _ _ _
               (np_random_choice_ok nt bs (mk_world (snd ba) (stdout w)) Hnt Hbt)).
    cbn [gen stdout]. fold bb.
    rewrite batch_grad_dual_alpha_eq by assumption. rewrite bind_lift_ok.
    rewrite batch_grad_dual_beta_eq by assumption. rewrite bind_lift_ok.
    rewrite iadd_at_ok;
      [| assumption | now apply (valid_batch_lt ns bs)
       | unfold dual_grad_alpha_spec; now rewrite np_muls_length, length_map].
    rewrite bind_lift_ok.
    rewrite iadd_at_ok;
      [| assumption | now apply (valid_batch_lt nt bs)
       | unfold dual_grad_beta_spec; now rewrite np_muls_length, length_map].
    rewrite bind_lift_ok. reflexivity.
Qed.

Lemma dual_spec_step_length alternate M reg bs lr k alpha beta batches :
  length (fst (dual_spec_step alternate M reg bs lr k (alpha, beta) batches))
  = length alpha
  /\ length (snd (dual_spec_step alternate M reg bs lr k (alpha, beta) batches))
     = length beta.
Proof.
  destruct batches as [ba bb]. destruct alternate; simpl;
    now rewrite !add_at_spec_length.
Qed.

Lemma sgd_loop_refines {G : RandomState} (alternate : bool) M reg bs lr ns nt
    (body : nat -> sgd_state -> Py G sgd_state) :
  body = (if alternate then sgd_body_alternate M reg bs lr ns nt
          else sgd_body_joint M reg bs lr ns nt) ->
  shape0 M = ns -> shape1 M = nt -> (0 < ns)%nat -> (0 < nt)%nat ->
  (bs <= ns)%nat -> (bs <= nt)%nat ->
  forall n lo st (w : world G),
  length (sgd_cur_alpha st) = ns -> length (sgd_cur_beta st) = nt ->
  let r := dual_spec_run alternate M reg bs lr (S lo)
             (choice_trace G ns nt bs n (gen w))
             (sgd_cur_alpha st, sgd_cur_beta st) in
  for_range body lo n st w
  = (Ok (mk_sgd_state (fst r) (snd r)),
     mk_world (choice_after G ns nt bs n (gen w)) (stdout w)).
Proof.
  intros Hbody HM0 HM1 Hns Hnt Hbs Hbt.
  induction n as [|n IH]; intros lo st w Hla Hlb.
  - simpl. destruct st, w. reflexivity.
  - cbn [for_range choice_trace choice_after dual_spec_run].
    assert (E : body lo st w
                = (Ok (mk_sgd_state
                         (fst (dual_spec_step alternate M reg bs lr (lo + 1)
                                 (sgd_cur_alpha st, sgd_cur_beta st)
                                 (fst (choice G ns bs (gen w)),
                                  fst (choice G nt bs (snd (choice G ns bs (gen w)))))))
                         (snd (dual_spec_step alternate M reg bs lr (lo + 1)
                                 (sgd_cur_alpha st, sgd_cur_beta st)
                                 (fst (choice G ns bs (gen w)),
                                  fst (choice G nt bs (snd (choice G ns bs (gen w)))))))),
                   mk_world (snd (choice G nt bs (snd (choice G ns bs (gen w)))))
                            (stdout w))).
    { rewrite Hbody.
      pose proof (sgd_body_ok alternate M reg bs lr ns nt lo st w
                    HM0 HM1 Hns Hnt Hbs Hbt Hla Hlb) as H.
      destruct alternate; exact H. }
    rewrite (bind_ok _ _ _ _ _ E).
    destruct (dual_spec_step_length alternate M reg bs lr (lo + 1)
                (sgd_cur_alpha st) (sgd_cur_beta st)
                (fst (choice G ns bs (gen w)),
                 fst (choice G nt bs (snd (choice G ns bs (gen w)))))) as [L1 L2].
    rewrite IH by (cbn [sgd_cur_alpha sgd_cur_beta]; congruence).
    cbn [sgd_cur_alpha sgd_cur_beta gen stdout].
    rewrite Nat.add_1_r. rewrite <- surjective_pairing. reflexivity.
Qed.

Lemma choice_trace_length (G : RandomState) ns nt bs n g :
  length (choice_trace G ns nt bs n g) = n.
Proof. revert g; induction n as [|n IH]; intros g; simpl; [reflexivity|now rewrite IH]. Qed.

Lemma choice_trace_valid (G : RandomState) ns nt bs n g :
  (bs <= ns)%nat -> (bs <= nt)%nat ->
  Forall (fun p => valid_batch ns bs (fst p) /\ valid_batch nt bs (snd p))
         (choice_trace G ns nt bs n g).
Proof.
  intros Hs Ht. revert g; induction n as [|n IH]; intros g; simpl; constructor.
  - simpl. split; now apply choice_valid.
  - apply IH.
Qed.

Lemma dual_spec_run_length alternate M reg bs lr batches :
  forall k alpha beta,
  length (fst (dual_spec_run alternate M reg bs lr k batches (alpha, beta)))
  = length alpha
  /\ length (snd (dual_spec_run alternate M reg bs lr k batches (alpha, beta)))
     = length beta.
Proof.
  induction batches as [|bb rest IH]; intros k alpha beta;
    cbn [dual_spec_run]; [now split|].
  destruct (dual_spec_step_length alternate M reg bs lr k alpha beta bb) as [L1 L2].
  destruct (dual_spec_step alternate M reg bs lr k (alpha, beta) bb) as [alpha' beta']
    eqn:E.
  cbn [fst snd] in L1, L2. rewrite <- L1, <- L2. apply IH.
Qed.

Lemma sgd_entropic_regularization_eq {G : RandomState}
    (M : ndarray2) (reg : R) (batch_size numItermax : nat) (lr : R)
    (alternate : bool) (w : world G) :
  (0 < shape0 M)%nat -> (0 < shape1 M)%nat ->
  (batch_size <= shape0 M)%nat -> (batch_size <= shape1 M)%nat ->
  let ns := shape0 M in
  let nt := shape1 M in
  let a0 := randn G ns (gen w) in
  let b0 := randn G nt (snd a0) in
  let batches := choice_trace G ns nt batch_size numItermax (snd b0) in
  sgd_entropic_regularization M reg batch_size numItermax lr alternate w
  = (Ok (dual_spec_run alternate M reg batch_size lr 1 batches (fst a0, fst b0)),
     mk_world (choice_after G ns nt batch_size numItermax (snd b0)) (stdout w)).
Proof.
  intros Hns Hnt Hbs Hbt ns nt a0 b0 batches.
  unfold sgd_entropic_regularization, np_random_randn. fold ns nt.
  unfold bind at 1. cbn [gen stdout]. fold a0.
  destruct a0 as [alpha0 g1] eqn:Ea0. cbn [fst snd] in *.
  unfold bind at 1. cbn [gen stdout]. fold b0.
  destruct b0 as [beta0 g2] eqn:Eb0. cbn [fst snd] in *.
  assert (La : length alpha0 = ns).
  { pose proof (randn_length G ns (gen w)) as H. fold a0 in H. now rewrite Ea0 in H. }
  assert (Lb : length beta0 = nt).
  { pose proof (randn_length G nt g1) as H. fold b0 in H. now rewrite Eb0 in H. }
  pose proof (sgd_loop_refines alternate M reg batch_size lr ns nt
                (if alternate then sgd_body_alternate M reg batch_size lr ns nt
                 else sgd_body_joint M reg batch_size lr ns nt)
                eq_refl eq_refl eq_refl Hns Hnt Hbs Hbt
                numItermax 0%nat (mk_sgd_state alpha0 beta0)
                (mk_world g2 (stdout w)) La Lb) as H.
  cbn [sgd_cur_alpha sgd_cur_beta gen stdout] in H.
  destruct alternate; cbv iota in H |- *;
    rewrite (bind_ok _ _ _ _ _ H); unfold ret; cbn [sgd_cur_alpha sgd_cur_beta];
    now rewrite <- surjective_pairing.
Qed.

Lemma sgd_returns {G : RandomState}
    (M : ndarray2) (reg : R) (batch_size numItermax : nat) (lr : R)
    (alternate : bool) (w : world G) :
  (0 < shape0 M)%nat -> (0 < shape1 M)%nat ->
  (batch_size <= shape0 M)%nat -> (batch_size <= shape1 M)%nat ->
  exists alpha beta w',
    sgd_entropic_regularization M reg batch_size numItermax lr alternate w
    = (Ok (alpha, beta), w')
    /\ length alpha = shape0 M /\ length beta = shape1 M.
Proof.
  intros Hns Hnt Hbs Hbt.
  pose proof (sgd_entropic_regularization_eq M reg batch_size numItermax lr alternate w
                Hns Hnt Hbs Hbt) as E. cbv zeta in E.
  destruct (dual_spec_run_length alternate M reg batch_size lr
              (choice_trace G (shape0 M) (shape1 M) batch_size numItermax
                 (snd (randn G (shape1 M) (snd (randn G (shape0 M) (gen w))))))
              1%nat (fst (randn G (shape0 M) (gen w)))
              (fst (randn G (shape1 M) (snd (randn G (shape0 M) (gen w))))))
    as [L1 L2].
  rewrite !randn_length in L1, L2.
  eexists _, _, _. split; [|split].
  - rewrite E. rewrite <- surjective_pairing. reflexivity.
  - exact L1.
  - exact L2.
Qed.

(** C8: the dual SGD solver starts from two successive [randn] draws for
    [alpha] and [beta], runs exactly [numItermax] iterations k = 1, 2, ...
    with the step [lr / sqrt k] on batches of [batch_size] distinct indices,
    and returns the final pair; with [alternate] the update of [alpha] is
    applied before the gradient in [beta] is taken, without it both
    gradients are taken at the state before the iteration. *)
Theorem sgd_entropic_regularization_correct {G : RandomState}
    (M : ndarray2) (reg : R) (batch_size numItermax : nat) (lr : R)
    (alternate : bool) (w : world G) :
  (0 < shape0 M)%nat -> (0 < shape1 M)%nat ->
  (batch_size <= shape0 M)%nat -> (batch_size <= shape1 M)%nat ->
  let ns := shape0 M in
  let nt := shape1 M in
  let a0 := randn G ns (gen w) in
  let b0 := randn G nt (snd a0) in
  let batches := choice_trace G ns nt batch_size numItermax (snd b0) in
  length (fst a0) = ns /\ length (fst b0) = nt
  /\ length batches = numItermax
  /\ Forall (fun p => valid_batch ns batch_size (fst p)
                      /\ valid_batch nt batch_size (snd p)) batches
  /\ sgd_entropic_regularization M reg batch_size numItermax lr alternate w
     = (Ok (dual_spec_run alternate M reg batch_size lr 1 batches (fst a0, fst b0)),
        mk_world (choice_after G ns nt batch_size numItermax (snd b0)) (stdout w)).
Proof.
  intros Hns Hnt Hbs Hbt ns nt a0 b0 batches.
  split; [apply randn_length|]. split; [apply randn_length|].
  split; [apply choice_trace_length|].
  split; [now apply choice_trace_valid|].
  now apply sgd_entropic_regularization_eq.
Qed.

Lemma sgd_entropic_regularization_correct_witness :
  let a0 := randn counter_rng 2 (gen ex_world) in
  let b0 := randn counter_rng 2 (snd a0) in
  let batches := choice_trace counter_rng 2 2 1 2 (snd b0) in
  length (fst a0) = 2%nat /\ length (fst b0) = 2%nat
  /\ length batches = 2%nat
  /\ Forall (fun p => valid_batch 2 1 (fst p) /\ valid_batch 2 1 (snd p)) batches
  /\ sgd_entropic_regularization ex_cost 1 1 2 1 true ex_world
     = (Ok (dual_spec_run true ex_cost 1 1 1 1 batches (fst a0, fst b0)),
        mk_world (choice_after counter_rng 2 2 1 2 (snd b0)) (stdout ex_world)).
Proof.
  apply (sgd_entropic_regularization_correct ex_cost 1 1 2 1 true ex_world);
    simpl; lia.
Defined.

(* ===================================================================== *)
(** ** Zero-sum dual vectors of the semi-dual solvers *)
(* ===================================================================== *)

Lemma np_sum_weighted_nonneg (e : nat -> R) (b : list R) (l : list nat) :
  (forall j, 0 < e j) -> Forall (Rle 0) b ->
  0 <= np_sum (map (fun j => e j * nth j b 0) l).
Proof.
  intros He Hb. apply np_sum_nonneg. apply Forall_forall. intros x Hx.
  apply in_map_iff in Hx. destruct Hx as [j [<- _]].
  apply Rmult_le_pos; [left; apply He|now apply nth_nonneg].
Qed.

Lemma np_sum_weighted_pos (e : nat -> R) (b : list R) (l : list nat) j0 :
  (forall j, 0 < e j) -> Forall (Rle 0) b -> In j0 l -> 0 < nth j0 b 0 ->
  0 < np_sum (map (fun j => e j * nth j b 0) l).
Proof.
  intros He Hb Hin Hpos. induction l as [|j l IH]; [contradiction|].
  change (0 < e j * nth j b 0 + np_sum (map (fun j => e j * nth j b 0) l)).
  pose proof (np_sum_weighted_nonneg e b l He Hb) as Hrest.
  assert (Hj : 0 <= e j * nth j b 0)
    by (apply Rmult_le_pos; [left; apply He|now apply nth_nonneg]).
  destruct Hin as [->|Hin].
  - pose proof (Rmult_lt_0_compat _ _ (He j0) Hpos). lra.
  - specialize (IH Hin). lra.
Qed.

Lemma np_sum_pos_entry (b : list R) :
  0 < np_sum b -> exists j, (j < length b)%nat /\ 0 < nth j b 0.
Proof.
  induction b as [|x b IH]; intros H.
  - unfold np_sum in H. simpl in H. lra.
  - change (0 < x + np_sum b) in H.
    destruct (Rlt_dec 0 x) as [Hx|Hx].
    + exists 0%nat. simpl. split; [lia|exact Hx].
    + destruct IH as [j [Hj Hp]]; [lra|].
      exists (S j). simpl. split; [lia|exact Hp].
Qed.

(** For a non-negative [b] with a positive total the normalizer of the
    coordinate gradient is positive. *)
Lemma gibbs_weights_sum_pos b M reg beta i nt :
  length b = nt -> Forall (Rle 0) b -> 0 < np_sum b ->
  0 < np_sum (gibbs_weights b M reg beta i nt).
Proof.
  intros Hlen Hb Hs. destruct (np_sum_pos_entry b Hs) as [j0 [Hj0 Hp]].
  unfold gibbs_weights.
  apply (np_sum_weighted_pos
           (fun j => exp (- (item M i j - nth j beta 0) / reg)) b (seq 0 nt) j0).
  - intros j. apply exp_pos.
  - exact Hb.
  - apply in_seq. lia.
  - exact Hp.
Qed.

Lemma grad_spec_sum b M reg beta i nt :
  length b = nt -> np_sum b = 1 -> 0 < np_sum (gibbs_weights b M reg beta i nt) ->
  np_sum (grad_spec b M reg beta i nt) = 0.
Proof.
  intros Hlen Hb Hpos. unfold grad_spec.
  rewrite np_sum_map2_minus
    by (now rewrite khi_of_length, gibbs_weights_length).
  rewrite khi_of_sum by lra. lra.
Qed.

Lemma np_sum_map_seq_nth (x : list R) n :
  length x = n -> np_sum (map (fun c => nth c x 0) (seq 0 n)) = np_sum x.
Proof. intros <-. now rewrite map_seq_nth. Qed.

Lemma sag_next_zero_sum a b M reg lr ns nt st i :
  length b = nt -> Forall (Rle 0) b -> np_sum b = 1 -> (i < ns)%nat ->
  sag_zero_sum ns nt st -> sag_zero_sum ns nt (sag_next a b M reg lr ns nt st i).
Proof.
  intros Hb Hnn Hs Hi (Hwf & Zb & Zs & Zr).
  pose proof Hwf as (Hbeta & Hs0 & Hs1 & Hsum).
  set (g := np_muls (nth i a 0) (grad_spec b M reg (sag_cur_beta st) i nt)).
  assert (Lg : length g = nt)
    by (subst g; rewrite np_muls_length, grad_spec_length; congruence).
  assert (Zg : np_sum g = 0).
  { subst g. rewrite np_sum_muls, grad_spec_sum; [ring|assumption|assumption|].
    apply gibbs_weights_sum_pos; [assumption|assumption|lra]. }
  set (old := map (item (stored_gradient st) i) (seq 0 nt)).
  assert (Lo : length old = nt) by (subst old; now rewrite length_map, length_seq).
  assert (Zd : np_sum (map2 Rminus g old) = 0).
  { rewrite np_sum_map2_minus by congruence. subst old. rewrite (Zr i Hi). lra. }
  assert (Ld : length (map2 Rminus g old) = nt)
    by (rewrite map2_length; congruence).
  assert (Zs' : np_sum (map2 Rplus (sum_stored_gradient st) (map2 Rminus g old)) = 0).
  { rewrite np_sum_map2_plus by congruence. lra. }
  split; [now apply sag_next_wf|].
  unfold sag_next. fold g. fold old.
  cbn [sag_cur_beta sum_stored_gradient stored_gradient item].
  split; [|split].
  - rewrite np_sum_map2_plus.
    + rewrite np_sum_muls, Zs'. lra.
    + rewrite np_muls_length, map2_length; congruence.
  - exact Zs'.
  - intros r Hr. destruct (Nat.eqb_spec r i) as [->|Hne].
    + rewrite np_sum_map_seq_nth; assumption.
    + now apply Zr.
Qed.

Lemma asgd_next_zero_sum b M reg lr nt k st i :
  length b = nt -> Forall (Rle 0) b -> np_sum b = 1 ->
  asgd_zero_sum nt st -> asgd_zero_sum nt (asgd_next b M reg lr nt k st i).
Proof.
  intros Hb Hnn Hs (Hwf & Zc & Za).
  pose proof Hwf as [Hc Ha].
  split; [now apply asgd_next_wf|].
  unfold asgd_next. cbn [asgd_cur_beta ave_beta].
  assert (Zn : np_sum (map2 Rplus (asgd_cur_beta st)
                 (np_muls (lr / sqrt (INR (k + 1)))
                    (grad_spec b M reg (asgd_cur_beta st) i nt))) = 0).
  { rewrite np_sum_map2_plus
      by (rewrite np_muls_length, grad_spec_length; congruence).
    rewrite np_sum_muls, grad_spec_sum; [lra|assumption|assumption|].
    apply gibbs_weights_sum_pos; [assumption|assumption|lra]. }
  split; [exact Zn|].
  rewrite np_sum_map2_plus.
  - rewrite !np_sum_muls, Zn, Za. ring.
  - rewrite !np_muls_length, map2_length; [congruence|].
    rewrite np_muls_length, grad_spec_length; congruence.
Qed.

Lemma default_lr_ok a reg lr :
  (0 < length a)%nat -> exists x, default_lr a reg lr = Ok x.
Proof.
  intros Ha. destruct lr as [x|]; simpl; [now exists x|].
  destruct (py_max_ok (np_divs a reg)) as [m [Em _]].
  - unfold np_divs. now rewrite length_map.
  - rewrite Em. simpl. now eexists.
Qed.

Lemma sag_loop_zero_sum {G : RandomState} a b M reg lr n (w : world G) :
  length a = shape0 M -> length b = shape1 M -> (0 < shape0 M)%nat ->
  Forall (Rle 0) b -> np_sum b = 1 ->
  exists st w', sag_loop a b M reg lr n w = (Ok st, w')
                /\ sag_zero_sum (shape0 M) (shape1 M) st.
Proof.
  intros Ha Hb Hns Hnn Hs. unfold sag_loop.
  apply (for_range_inv _ (sag_zero_sum (shape0 M) (shape1 M))).
  - intros k st w0 HP. pose proof HP as [Hwf _].
    eexists _, _. split.
    + apply (sag_body_ok a b M reg lr (shape0 M) (shape1 M)); auto.
    + apply sag_next_zero_sum; auto. now apply randint_lt.
  - split; [apply sag_init_wf|]. unfold sag_init.
    cbn [sag_cur_beta sum_stored_gradient stored_gradient].
    rewrite np_sum_zeros. repeat split. intros r _. simpl.
    unfold np_sum. induction (seq 0 (shape1 M)) as [|c l IH]; simpl; [reflexivity|].
    rewrite IH. ring.
Qed.

Lemma asgd_loop_zero_sum {G : RandomState} b M reg lr n (w : world G) :
  length b = shape1 M -> (0 < shape0 M)%nat ->
  Forall (Rle 0) b -> np_sum b = 1 ->
  exists st w', asgd_loop b M reg lr n w = (Ok st, w')
                /\ asgd_zero_sum (shape1 M) st.
Proof.
  intros Hb Hns Hnn Hs. unfold asgd_loop.
  apply (for_range_inv _ (asgd_zero_sum (shape1 M))).
  - intros k st w0 HP. pose proof HP as [Hwf _].
    eexists _, _. split.
    + apply (asgd_body_ok b M reg lr (shape0 M) (shape1 M)); auto.
    + apply asgd_next_zero_sum; auto.
  - unfold asgd_zero_sum, asgd_wf, asgd_init. cbn [asgd_cur_beta ave_beta].
    rewrite np_sum_zeros. unfold np_zeros. now rewrite repeat_length.
Qed.

(** C10: when [b] is non-negative and sums to 1, every normalizer is
    positive and every coordinate gradient sums to 0; hence, whatever the
    number of iterations and the indices drawn, SAG and ASGD return (they do
    not raise) a dual vector whose entries sum to 0. *)
Theorem semi_dual_solvers_zero_sum {G : RandomState}
    (a b : array) (M : ndarray2) (reg : R) (numItermax : nat) (lr : option R)
    (w : world G) :
  length a = shape0 M -> length b = shape1 M -> (0 < shape0 M)%nat ->
  Forall (Rle 0) b -> np_sum b = 1 ->
  (forall beta i, length beta = shape1 M -> (i < shape0 M)%nat ->
     0 < np_sum (gibbs_weights b M reg beta i (shape1 M))
     /\ exists g, coordinate_grad_semi_dual b M reg beta i = Ok g /\ np_sum g = 0)
  /\ (exists beta w',
        sag_entropic_transport a b M reg numItermax lr w = (Ok beta, w')
        /\ np_sum beta = 0)
  /\ (exists beta w',
        averaged_sgd_entropic_transport a b M reg numItermax lr w = (Ok beta, w')
        /\ np_sum beta = 0).
Proof.
  intros Ha Hb Hns Hnn Hs.
  destruct (default_lr_ok a reg lr) as [x Ex]; [lia|].
  split; [|split].
  - intros beta i Hbeta Hi.
    assert (Hpos : 0 < np_sum (gibbs_weights b M reg beta i (shape1 M)))
      by (apply gibbs_weights_sum_pos; [assumption|assumption|lra]).
    split; [exact Hpos|].
    eexists. split.
    + now apply (coordinate_grad_semi_dual_eq b M reg beta i (shape1 M)).
    + now apply grad_spec_sum.
  - destruct (sag_loop_zero_sum a b M reg x numItermax w Ha Hb Hns Hnn Hs)
      as [st [w' [E (_ & Zb & _)]]].
    exists (sag_cur_beta st), w'. split; [|exact Zb].
    unfold sag_entropic_transport. rewrite Ex, bind_lift_ok.
    now rewrite (bind_ok _ _ _ _ _ E).
  - destruct (asgd_loop_zero_sum b M reg x numItermax w Hb Hns Hnn Hs)
      as [st [w' [E (_ & _ & Za)]]].
    exists (ave_beta st), w'. split; [|exact Za].
    unfold averaged_sgd_entropic_transport. rewrite Ex, bind_lift_ok.
    now rewrite (bind_ok _ _ _ _ _ E).
Qed.

Lemma semi_dual_solvers_zero_sum_witness :
  (forall beta i, length beta = 2%nat -> (i < 2)%nat ->
     0 < np_sum (gibbs_weights ex_weights ex_cost 1 beta i 2)
     /\ exists g, coordinate_grad_semi_dual ex_weights ex_cost 1 beta i = Ok g
                  /\ np_sum g = 0)
  /\ (exists beta w',
        sag_entropic_transport ex_weights ex_weights ex_cost 1 3 None ex_world
        = (Ok beta, w')
        /\ np_sum beta = 0)
  /\ (exists beta w',
        averaged_sgd_entropic_transport ex_weights ex_weights ex_cost 1 3 None ex_world
        = (Ok beta, w')
        /\ np_sum beta = 0).
Proof.
  apply (semi_dual_solvers_zero_sum ex_weights ex_weights ex_cost 1 3 None ex_world).
  - reflexivity.
  - reflexivity.
  - simpl; lia.
  - unfold ex_weights. repeat constructor; lra.
  - unfold ex_weights, np_sum. simpl. lra.
Defined.

(* ===================================================================== *)
(** ** Reconstruction of the plan (sections 4.5 and 4.8) *)
(* ===================================================================== *)

Lemma broadcast_len_1_r n : broadcast_len n 1 = Ok n.
Proof.
  unfold broadcast_len. destruct (Nat.eqb_spec n 1) as [->|_]; reflexivity.
Qed.

Lemma broadcast_len_1_l n : broadcast_len 1 n = Ok n.
Proof.
  unfold broadcast_len. destruct (Nat.eqb_spec 1 n) as [<-|_]; reflexivity.
Qed.

Lemma broadcast_index n i :
  (i < n)%nat -> (if (n =? 1)%nat then 0%nat else i) = i.
Proof. intros H. destruct (Nat.eqb_spec n 1); [lia|reflexivity]. Qed.

Lemma gibbs_plan_ok a b M reg alpha beta (log : bool) :
  length alpha = shape0 M -> length beta = shape1 M ->
  length a = shape0 M -> length b = shape1 M ->
  exists pi,
    (s <- np_binop2 Rplus (as_column alpha) (as_row beta) ;;
     d <- np_binop2 Rminus s M ;;
     p <- np_binop2 Rmult (np_map2d exp (np_map2d (fun u => u / reg) d))
                          (as_column a) ;;
     pi <- np_binop2 Rmult p (as_row b) ;;
     if log
     then Ok (RPlanLog pi [("alpha"%string, alpha); ("beta"%string, beta)])
     else Ok (RPlan pi))%res
    = Ok (plan_result log pi alpha beta)
    /\ is_gibbs_plan a b M reg alpha beta pi.
Proof.
  intros Hla Hlb Ha Hb. unfold np_binop2, plan_result.
  cbn [shape0 shape1 as_column as_row np_map2d].
  rewrite Hla, Hlb, Ha, Hb.
  rewrite broadcast_len_1_r, broadcast_len_1_l. cbn [rbind shape0 shape1].
  rewrite !broadcast_len_same. cbn [rbind shape0 shape1].
  rewrite broadcast_len_1_r, broadcast_len_same. cbn [rbind shape0 shape1].
  rewrite broadcast_len_1_r, broadcast_len_same. cbn [rbind shape0 shape1].
  eexists. split.
  - destruct log; reflexivity.
  - split; [reflexivity|]. split; [reflexivity|].
    intros i j Hi Hj. cbn [item shape0 shape1 as_column as_row np_map2d].
    rewrite ?Nat.eqb_refl.
    rewrite !(broadcast_index (shape0 M) i Hi), !(broadcast_index (shape1 M) j Hj).
    reflexivity.
Qed.

Lemma sag_returns {G : RandomState} a b M reg n lr (w : world G) :
  length a = shape0 M -> length b = shape1 M -> (0 < shape0 M)%nat ->
  exists beta w',
    sag_entropic_transport a b M reg n lr w = (Ok beta, w')
    /\ length beta = shape1 M.
Proof.
  intros Ha Hb Hns.
  destruct (default_lr_ok a reg lr) as [x Ex]; [lia|].
  destruct (sag_loop_refines a b M reg x (shape0 M) (shape1 M) Ha Hb eq_refl eq_refl
              Hns n 0%nat (sag_init M) (sag_spec_init (shape1 M)) w (sag_sim_init M))
    as [st [E ((Hl & _) & _)]].
  exists (sag_cur_beta st). eexists. split; [|exact Hl].
  unfold sag_entropic_transport. rewrite Ex, bind_lift_ok.
  unfold sag_loop. now rewrite (bind_ok _ _ _ _ _ E).
Qed.

Lemma asgd_returns {G : RandomState} a b M reg n lr (w : world G) :
  length a = shape0 M -> length b = shape1 M -> (0 < shape0 M)%nat ->
  exists beta w',
    averaged_sgd_entropic_transport a b M reg n lr w = (Ok beta, w')
    /\ length beta = shape1 M.
Proof.
  intros Ha Hb Hns.
  destruct (default_lr_ok a reg lr) as [x Ex]; [lia|].
  destruct (asgd_loop_refines b M reg x (shape0 M) (shape1 M) Hb eq_refl eq_refl
              Hns n 0%nat (asgd_init M) w) as [st [E [[_ Hl] _]]].
  { unfold asgd_wf, asgd_init, np_zeros. simpl. now rewrite repeat_length. }
  exists (ave_beta st). eexists. split; [|exact Hl].
  unfold averaged_sgd_entropic_transport. rewrite Ex, bind_lift_ok.
  unfold asgd_loop. now rewrite (bind_ok _ _ _ _ _ E).
Qed.

Lemma semi_dual_finish_ok a b M reg opt_beta log :
  length a = shape0 M -> length b = shape1 M -> (0 < shape1 M)%nat ->
  length opt_beta = shape1 M ->
  exists opt_alpha pi,
    c_transform_entropic b M reg opt_beta = Ok opt_alpha
    /\ semi_dual_finish a b M reg opt_beta log
       = Ok (plan_result log pi opt_alpha opt_beta)
    /\ is_gibbs_plan a b M reg opt_alpha opt_beta pi.
Proof.
  intros Ha Hb Hnt Hlb.
  destruct (c_transform_loop_ok b M reg opt_beta (shape1 M) Hb eq_refl Hlb Hnt
              (shape0 M) 0%nat (np_zeros (shape0 M)))
    as [alpha [E [Hl _]]].
  { lia. } { unfold np_zeros. apply repeat_length. }
  destruct (gibbs_plan_ok a b M reg alpha opt_beta log Hl Hlb Ha Hb) as [pi [Ep Hp]].
  change (c_transform_entropic b M reg opt_beta = Ok alpha) in E.
  exists alpha, pi. split; [exact E|]. split; [|exact Hp].
  unfold semi_dual_finish. rewrite E. cbn [rbind]. exact Ep.
Qed.

(** C9: both orchestrators return the plan
    [pi[i,j] = exp((alpha[i] + beta[j] - M[i,j]) / reg) * a[i] * b[j]]:
    the semi-dual one with [beta] from SAG or ASGD and [alpha] its
    c-transform, the dual one with the pair [(alpha, beta)] of the SGD solver
    as it is; with the [log] flag the call returns the plan together with the
    mapping of "alpha" and "beta". *)
Theorem orchestrators_plan_reconstruction {G : RandomState}
    (a b : array) (M : ndarray2) (reg : R) (numItermax batch_size : nat)
    (lr : option R) (lr_dual : R) (log : bool) (w : world G) :
  length a = shape0 M -> length b = shape1 M ->
  (0 < shape0 M)%nat -> (0 < shape1 M)%nat ->
  (batch_size <= shape0 M)%nat -> (batch_size <= shape1 M)%nat ->
  (forall method, In method (casings "sag") ->
     exists opt_alpha opt_beta pi w',
       sag_entropic_transport a b M reg numItermax lr w = (Ok opt_beta, w')
       /\ c_transform_entropic b M reg opt_beta = Ok opt_alpha
       /\ solve_semi_dual_entropic a b M reg method numItermax lr log w
          = (Ok (plan_result log pi opt_alpha opt_beta), w')
       /\ is_gibbs_plan a b M reg opt_alpha opt_beta pi)
  /\ (forall method, In method (casings "asgd") ->
        exists opt_alpha opt_beta pi w',
          averaged_sgd_entropic_transport a b M reg numItermax lr w = (Ok opt_beta, w')
          /\ c_transform_entropic b M reg opt_beta = Ok opt_alpha
          /\ solve_semi_dual_entropic a b M reg method numItermax lr log w
             = (Ok (plan_result log pi opt_alpha opt_beta), w')
          /\ is_gibbs_plan a b M reg opt_alpha opt_beta pi)
  /\ (exists opt_alpha opt_beta pi w',
        sgd_entropic_regularization M reg batch_size numItermax lr_dual true w
        = (Ok (opt_alpha, opt_beta), w')
        /\ solve_dual_entropic a b M reg batch_size numItermax lr_dual log w
           = (Ok (plan_result log pi opt_alpha opt_beta), w')
        /\ is_gibbs_plan a b M reg opt_alpha opt_beta pi).
Proof.
  intros Ha Hb Hns Hnt Hbs Hbt. split; [|split].
  - intros method Hm. apply casings_lower in Hm.
    change (lower method = "sag"%string) in Hm.
    destruct (sag_returns a b M reg numItermax lr w Ha Hb Hns) as [beta [w' [E Hl]]].
    destruct (semi_dual_finish_ok a b M reg beta log Ha Hb Hnt Hl)
      as [alpha [pi [Ec [Ef Hp]]]].
    exists alpha, beta, pi, w'. repeat split; try assumption; try apply Hp.
    unfold solve_semi_dual_entropic. rewrite Hm, String.eqb_refl.
    rewrite (bind_ok _ _ _ _ _ E). unfold lift. now rewrite Ef.
  - intros method Hm. apply casings_lower in Hm.
    change (lower method = "asgd"%string) in Hm.
    destruct (asgd_returns a b M reg numItermax lr w Ha Hb Hns) as [beta [w' [E Hl]]].
    destruct (semi_dual_finish_ok a b M reg beta log Ha Hb Hnt Hl)
      as [alpha [pi [Ec [Ef Hp]]]].
    exists alpha, beta, pi, w'. repeat split; try assumption; try apply Hp.
    unfold solve_semi_dual_entropic. rewrite Hm.
    change (String.eqb "asgd" "sag") with false. rewrite String.eqb_refl.
    cbv iota.
    rewrite (bind_ok _ _ _ _ _ E). unfold lift. now rewrite Ef.
  - destruct (sgd_returns M reg batch_size numItermax
                lr_dual true w Hns Hnt Hbs Hbt) as [alpha [beta [w' [E [Hla Hlb]]]]].
    destruct (gibbs_plan_ok a b M reg alpha beta log Hla Hlb Ha Hb) as [pi [Ep Hp]].
    exists alpha, beta, pi, w'. split; [exact E|]. split; [|exact Hp].
    unfold solve_dual_entropic. rewrite (bind_ok _ _ _ _ _ E).
    cbv beta zeta. cbn [fst snd]. unfold lift.
    exact (f_equal (fun r => (r, w')) Ep).
Qed.

Lemma orchestrators_plan_reconstruction_witness :
  (exists opt_alpha opt_beta pi w',
     sag_entropic_transport ex_weights ex_weights ex_cost 1 2 None ex_world
     = (Ok opt_beta, w')
     /\ c_transform_entropic ex_weights ex_cost 1 opt_beta = Ok opt_alpha
     /\ solve_semi_dual_entropic ex_weights ex_weights ex_cost 1 "SAG" 2 None true
          ex_world
        = (Ok (plan_result true pi opt_alpha opt_beta), w')
     /\ is_gibbs_plan ex_weights ex_weights ex_cost 1 opt_alpha opt_beta pi)
  /\ (exists opt_alpha opt_beta pi w',
        sgd_entropic_regularization ex_cost 1 1 2 1 true ex_world
        = (Ok (opt_alpha, opt_beta), w')
        /\ solve_dual_entropic ex_weights ex_weights ex_cost 1 1 2 1 true ex_world
           = (Ok (plan_result true pi opt_alpha opt_beta), w')
        /\ is_gibbs_plan ex_weights ex_weights ex_cost 1 opt_alpha opt_beta pi).
Proof.
  destruct (orchestrators_plan_reconstruction
              ex_weights ex_weights ex_cost 1 2 1 None 1 true ex_world)
    as [Hsag [_ Hdual]]; try reflexivity; try (simpl; lia).
  split; [|exact Hdual].
  apply (Hsag "SAG"%string). simpl. tauto.
Defined.

(* ===================================================================== *)
(** ** Worked examples: concrete values and the exceptions of numpy *)
(* ===================================================================== *)

(** On the 2 x 2 instance, at [beta = 0] and row 0, the gradient is
    [1/2 - 1/(1 + e^-1)] and [1/2 - e^-1/(1 + e^-1)]. *)
Example coordinate_grad_semi_dual_value :
  exists x y,
    coordinate_grad_semi_dual ex_weights ex_cost 1 [0; 0] 0 = Ok [x; y]
    /\ x = 1/2 - 1 / (1 + exp (-1))
    /\ y = 1/2 - exp (-1) / (1 + exp (-1)).
Proof.
  rewrite (coordinate_grad_semi_dual_eq ex_weights ex_cost 1 [0; 0] 0 2)
    by (try reflexivity; simpl; lia).
  unfold khi_of, gibbs_weights, ex_weights, ex_cost, np_sum. simpl.
  replace (- (0 - 0) / 1) with 0 by field.
  replace (- (1 - 0) / 1) with (-1) by field.
  rewrite exp_0. pose proof (exp_pos (-1)) as He.
  eexists _, _. split; [reflexivity|]. split; field; lra.
Qed.

(** A row index out of range raises [IndexError]; a dual vector of the
    wrong length raises [ValueError]. *)
Example coordinate_grad_semi_dual_bad_index :
  coordinate_grad_semi_dual ex_weights ex_cost 1 [0; 0] 2 = Raise IndexError.
Proof. reflexivity. Qed.

Example coordinate_grad_semi_dual_bad_shape :
  coordinate_grad_semi_dual ex_weights ex_cost 1 [0; 0; 0] 0 = Raise ValueError.
Proof. reflexivity. Qed.

(** Without a target the minimum of an empty row raises [ValueError]. *)
Example c_transform_entropic_no_target :
  c_transform_entropic [] (np_zeros2 1 0) 1 [] = Raise ValueError.
Proof. reflexivity. Qed.

(** Without a source, [randint(0)] raises in the first turn of the loop and
    the default learning rate raises on the empty [a]; with no iteration SAG
    returns the zero vector. *)
Example sag_entropic_transport_no_source :
  sag_entropic_transport [] [1] (np_zeros2 0 1) 1 1 (Some 1) ex_world
  = (Raise ValueError, ex_world).
Proof. reflexivity. Qed.

Example sag_entropic_transport_no_source_default_lr :
  sag_entropic_transport [] [1] (np_zeros2 0 1) 1 1 None ex_world
  = (Raise ValueError, ex_world).
Proof. reflexivity. Qed.

Example sag_entropic_transport_no_iteration :
  sag_entropic_transport ex_weights ex_weights ex_cost 1 0 (Some 1) ex_world
  = (Ok [0; 0], ex_world).
Proof. reflexivity. Qed.

(** A batch larger than the population raises [ValueError]. *)
Example sgd_entropic_regularization_large_batch :
  fst (sgd_entropic_regularization ex_cost 1 3 1 1 true ex_world) = Raise ValueError.
Proof. reflexivity. Qed.

(** An index repeated in a batch is written twice and the last write wins. *)
Example iadd_at_repeated_index :
  iadd_at [0; 0] [0; 0]%nat [1; 2] = Ok [0 + 2; 0].
Proof. reflexivity. Qed.

(** One-dimensional broadcasting: an array of length 1 is stretched. *)
Example np_binop_broadcast :
  np_add [1] [2; 3] = Ok [1 + 2; 1 + 3]
  /\ np_iadd [1] [2; 3] = Raise ValueError
  /\ np_add [1; 2] [1; 2; 3] = Raise ValueError.
Proof. repeat split; reflexivity. Qed.

(** The method name is compared in lower case. *)
Example lower_ASGD : lower "AsGd" = "asgd"%string.
Proof. reflexivity. Qed.

(* ===================================================================== *)
(** ** Further properties of the coordinate gradient *)
(* ===================================================================== *)







Lemma nonneg_entry_le_sum (x : list R) j :
  Forall (Rle 0) x -> nth j x 0 <= np_sum x.
Proof.
  intros H. revert j. induction H as [|u x Hu Hx IH]; intros j.
  - destruct j; unfold np_sum; simpl; lra.
  - change (np_sum (u :: x)) with (u + np_sum x).
    pose proof (np_sum_nonneg x Hx). destruct j as [|j]; simpl.
    + lra.
    + specialize (IH j). lra.
Qed.

(** For a non-negative [b] and a positive normalizer every entry of the
    coordinate gradient lies between [b[j] - 1] and [b[j]]. *)
Theorem coordinate_grad_semi_dual_bounds
    (b : array) (M : ndarray2) (reg : R) (beta : array) (i nt : nat) :
  length b = nt -> shape1 M = nt -> length beta = nt -> (i < shape0 M)%nat ->
  Forall (Rle 0) b -> 0 < np_sum (gibbs_weights b M reg beta i nt) ->
  exists grad,
    coordinate_grad_semi_dual b M reg beta i = Ok grad
    /\ forall j, (j < nt)%nat ->
         nth j b 0 - 1 <= nth j grad 0 <= nth j b 0.
Proof.
  intros Hb HM Hbeta Hi Hnn Hs.
  eexists. split; [now apply (coordinate_grad_semi_dual_eq b M reg beta i nt)|].
  intros j Hj.
  set (khi := khi_of (gibbs_weights b M reg beta i nt)).
  assert (Hk : Forall (Rle 0) khi)
    by (apply khi_of_nonneg; [now apply gibbs_weights_nonneg|assumption]).
  assert (Hk1 : np_sum khi = 1) by (apply khi_of_sum; lra).
  rewrite map2_nth
    by (subst khi; rewrite ?khi_of_length, ?gibbs_weights_length; lia).
  pose proof (nth_nonneg khi j Hk). pose proof (nonneg_entry_le_sum khi j Hk).
  lra.
Qed.

Lemma coordinate_grad_semi_dual_bounds_witness :
  exists grad,
    coordinate_grad_semi_dual ex_weights ex_cost 1 [0; 0] 0 = Ok grad
    /\ forall j, (j < 2)%nat ->
         nth j ex_weights 0 - 1 <= nth j grad 0 <= nth j ex_weights 0.
Proof.
  apply (coordinate_grad_semi_dual_bounds ex_weights ex_cost 1 [0; 0] 0 2);
    try reflexivity.
  - simpl; lia.
  - unfold ex_weights. repeat constructor; lra.
  - unfold gibbs_weights, ex_weights, np_sum. simpl.
    pose proof (exp_pos (- (0 - 0) / 1)). pose proof (exp_pos (- (1 - 0) / 1)). lra.
Defined.

(** A row index at or beyond the number of rows raises [IndexError],
    whatever the other arguments are, also when they are ill-shaped. *)
Theorem coordinate_grad_semi_dual_index_error
    (b : array) (M : ndarray2) (reg : R) (beta : array) (i : nat) :
  (shape0 M <= i)%nat ->
  coordinate_grad_semi_dual b M reg beta i = Raise IndexError.
Proof.
  intros Hi. unfold coordinate_grad_semi_dual, getrow.
  destruct (Nat.ltb_spec i (shape0 M)); [lia|reflexivity].
Qed.

Lemma coordinate_grad_semi_dual_index_error_witness :
  coordinate_grad_semi_dual [1; 2; 3] ex_cost 1 [] 5 = Raise IndexError.
Proof.
  apply (coordinate_grad_semi_dual_index_error [1; 2; 3] ex_cost 1 [] 5).
  simpl; lia.
Defined.

(* ===================================================================== *)
(** ** Further properties of SAG and ASGD *)
(* ===================================================================== *)







Lemma default_lr_error a reg lr e : default_lr a reg lr = Raise e -> e = ValueError.
Proof.
  destruct lr as [x|]; simpl; [discriminate|].
  destruct a as [|u a]; simpl; [congruence|discriminate].
Qed.

(** With a cost matrix without rows and at least one iteration, SAG and
    ASGD raise [ValueError], whatever [a], [b] and the learning rate are, and
    leave the generator and the output untouched. *)
Theorem semi_dual_solvers_no_source {G : RandomState}
    (a b : array) (M : ndarray2) (reg : R) (numItermax : nat) (lr : option R)
    (w : world G) :
  shape0 M = 0%nat -> (0 < numItermax)%nat ->
  sag_entropic_transport a b M reg numItermax lr w = (Raise ValueError, w)
  /\ averaged_sgd_entropic_transport a b M reg numItermax lr w = (Raise ValueError, w).
Proof.
  intros HM Hn. destruct numItermax as [|n]; [lia|].
  unfold sag_entropic_transport, averaged_sgd_entropic_transport.
  destruct (default_lr a reg lr) as [x|e] eqn:E.
  - rewrite !bind_lift_ok. unfold sag_loop, asgd_loop. rewrite HM.
    split; reflexivity.
  - apply default_lr_error in E. subst e. split; reflexivity.
Qed.

Lemma semi_dual_solvers_no_source_witness :
  sag_entropic_transport [] [1] (np_zeros2 0 1) 1 4 None ex_world
  = (Raise ValueError, ex_world)
  /\ averaged_sgd_entropic_transport [] [1] (np_zeros2 0 1) 1 4 None ex_world
     = (Raise ValueError, ex_world).
Proof.
  apply (semi_dual_solvers_no_source [] [1] (np_zeros2 0 1) 1 4 None ex_world).
  - reflexivity.
  - lia.
Defined.

Lemma fold_left_Rmax_pos t x : (0 < x \/ Exists (Rlt 0) t) -> 0 < fold_left Rmax t x.
Proof.
  revert x. induction t as [|u t IH]; intros x H; simpl.
  - destruct H as [H|H]; [exact H|inversion H].
  - apply IH. destruct H as [H|H].
    + left. pose proof (Rmax_l x u). lra.
    + inversion H as [? ? Hu|? ? Ht]; subst.
      * left. pose proof (Rmax_r x u). lra.
      * now right.
Qed.



(* ===================================================================== *)
(** ** Further properties of the c-transform *)
(* ===================================================================== *)

Lemma c_transform_entropic_entries b M reg beta nt :
  length b = nt -> shape1 M = nt -> length beta = nt -> (0 < nt)%nat ->
  exists alpha,
    c_transform_entropic b M reg beta = Ok alpha
    /\ length alpha = shape0 M
    /\ forall i, (i < shape0 M)%nat ->
         nth i alpha 0 = c_transform_entry b M reg beta i nt.
Proof.
  intros Hb HM Hbeta Hnt.
  destruct (c_transform_loop_ok b M reg beta nt Hb HM Hbeta Hnt
              (shape0 M) 0%nat (np_zeros (shape0 M)))
    as [alpha [E [Hl [Hin _]]]].
  { lia. } { unfold np_zeros. apply repeat_length. }
  exists alpha. split; [exact E|]. split; [exact Hl|].
  intros i Hi. apply Hin. lia.
Qed.

Lemma cost_row_length M beta i nt : length (cost_row M beta i nt) = nt.
Proof. unfold cost_row. now rewrite length_map, length_seq. Qed.






Lemma np_sum_map_le (f g : nat -> R) (l : list nat) :
  (forall j, In j l -> f j <= g j) -> np_sum (map f l) <= np_sum (map g l).
Proof.
  unfold np_sum. induction l as [|j l IH]; intros H; simpl; [lra|].
  pose proof (H j (or_introl eq_refl)).
  assert (fold_right Rplus 0 (map f l) <= fold_right Rplus 0 (map g l))
    by (apply IH; intros k Hk; apply H; now right).
  lra.
Qed.

Lemma shifted_weights_sum_pos b M reg beta i nt m :
  length b = nt -> Forall (Rle 0) b -> 0 < np_sum b ->
  0 < np_sum (shifted_weights b M reg beta i nt m).
Proof.
  intros Hlen Hb Hs. destruct (np_sum_pos_entry b Hs) as [j0 [Hj0 Hp]].
  unfold shifted_weights.
  apply (np_sum_weighted_pos
           (fun j => exp (- ((item M i j - nth j beta 0) - m) / reg)) b (seq 0 nt) j0).
  - intros j. apply exp_pos.
  - exact Hb.
  - apply in_seq. lia.
  - exact Hp.
Qed.

Lemma cost_row_nth M beta i nt j :
  (j < nt)%nat -> nth j (cost_row M beta i nt) 0 = item M i j - nth j beta 0.
Proof. intros Hj. unfold cost_row. now rewrite nth_map_seq. Qed.



(** For a probability vector [b] and a positive [reg] the c-transform is a
    soft minimum: its entry [i] lies between the smallest and the largest
    entry of the row [M[i,:] - beta]. *)
Theorem c_transform_entropic_soft_min
    (b : array) (M : ndarray2) (reg : R) (beta : array) (nt : nat) :
  length b = nt -> shape1 M = nt -> length beta = nt -> (0 < nt)%nat ->
  0 < reg -> Forall (Rle 0) b -> np_sum b = 1 ->
  exists alpha,
    c_transform_entropic b M reg beta = Ok alpha
    /\ forall i lo hi, (i < shape0 M)%nat ->
         is_min lo (cost_row M beta i nt) -> is_max hi (cost_row M beta i nt) ->
         lo <= nth i alpha 0 <= hi.
Proof.
  intros Hb HM Hbeta Hnt Hreg Hnn Hs.
  destruct (c_transform_entropic_entries b M reg beta nt Hb HM Hbeta Hnt)
    as [alpha [E [Hl Hi]]].
  exists alpha. split; [exact E|].
  intros i lo hi Hlt [_ Hlo] [_ Hhi]. rewrite (Hi i Hlt).
  rewrite Forall_forall in Hlo, Hhi.
  assert (Hpos : 0 < np_sum (gibbs_weights b M reg beta i nt))
    by (apply gibbs_weights_sum_pos; [assumption|assumption|lra]).
  assert (Hany : forall m,
            c_transform_entry b M reg beta i nt
            = m - reg * ln (np_sum (shifted_weights b M reg beta i nt m))).
  { intros m. unfold c_transform_entry.
    rewrite !log_sum_exp_shift by (try assumption; lra). reflexivity. }
  assert (Hsb : np_sum (map (fun j => nth j b 0) (seq 0 nt)) = 1)
    by (now rewrite np_sum_map_seq_nth).
  assert (Hrow : forall j, (j < nt)%nat ->
            In (item M i j - nth j beta 0) (cost_row M beta i nt)).
  { intros j Hj. rewrite <- (cost_row_nth M beta i nt j Hj).
    apply nth_In. rewrite cost_row_length. lia. }
  split.
  - rewrite (Hany lo).
    assert (Hle : np_sum (shifted_weights b M reg beta i nt lo) <= 1).
    { rewrite <- Hsb. unfold shifted_weights. apply np_sum_map_le.
      intros j Hj. apply in_seq in Hj.
      pose proof (nth_nonneg b j Hnn) as Hbj.
      assert (Harg : - ((item M i j - nth j beta 0) - lo) / reg <= 0).
      { pose proof (Hlo _ (Hrow j ltac:(lia))).
        unfold Rdiv. pose proof (Rinv_0_lt_compat reg Hreg). nra. }
      assert (He : exp (- ((item M i j - nth j beta 0) - lo) / reg) <= 1).
      { rewrite <- exp_0. destruct Harg as [Hlt'|Heq].
        - left. now apply exp_increasing.
        - right. now rewrite Heq. }
      rewrite <- (Rmult_1_l (nth j b 0)) at 2.
      apply Rmult_le_compat_r; assumption. }
    pose proof (shifted_weights_sum_pos b M reg beta i nt lo Hb Hnn ltac:(lra)) as Hp.
    assert (Hln : ln (np_sum (shifted_weights b M reg beta i nt lo)) <= 0).
    { rewrite <- ln_1. destruct Hle as [Hlt'|Heq].
      - left. now apply ln_increasing.
      - right. now rewrite Heq. }
    assert (0 <= - (reg * ln (np_sum (shifted_weights b M reg beta i nt lo))))
      by nra.
    lra.
  - rewrite (Hany hi).
    assert (Hge : 1 <= np_sum (shifted_weights b M reg beta i nt hi)).
    { rewrite <- Hsb. unfold shifted_weights. apply np_sum_map_le.
      intros j Hj. apply in_seq in Hj.
      pose proof (nth_nonneg b j Hnn) as Hbj.
      assert (Harg : 0 <= - ((item M i j - nth j beta 0) - hi) / reg).
      { pose proof (Hhi _ (Hrow j ltac:(lia))).
        unfold Rdiv. pose proof (Rinv_0_lt_compat reg Hreg). nra. }
      assert (He : 1 <= exp (- ((item M i j - nth j beta 0) - hi) / reg)).
      { rewrite <- exp_0. destruct Harg as [Hlt'|Heq].
        - left. now apply exp_increasing.
        - right. now rewrite <- Heq. }
      rewrite <- (Rmult_1_l (nth j b 0)) at 1.
      apply Rmult_le_compat_r; assumption. }
    assert (Hln : 0 <= ln (np_sum (shifted_weights b M reg beta i nt hi))).
    { rewrite <- ln_1. destruct Hge as [Hlt'|Heq].
      - left. apply ln_increasing; lra.
      - right. now rewrite <- Heq. }
    assert (0 <= reg * ln (np_sum (shifted_weights b M reg beta i nt hi)))
      by (apply Rmult_le_pos; lra).
    lra.
Qed.

Lemma c_transform_entropic_soft_min_witness :
  exists alpha,
    c_transform_entropic ex_weights ex_cost 1 [0; 0] = Ok alpha
    /\ forall i lo hi, (i < shape0 ex_cost)%nat ->
         is_min lo (cost_row ex_cost [0; 0] i 2) ->
         is_max hi (cost_row ex_cost [0; 0] i 2) ->
         lo <= nth i alpha 0 <= hi.
Proof.
  apply (c_transform_entropic_soft_min ex_weights ex_cost 1 [0; 0] 2);
    try reflexivity.
  - lia.
  - lra.
  - unfold ex_weights. repeat constructor; lra.
  - unfold ex_weights, np_sum. simpl. lra.
Defined.

(* ===================================================================== *)
(** ** Further properties of the plans *)
(* ===================================================================== *)

Lemma gibbs_weights_nth b M reg beta i nt j :
  (j < nt)%nat ->
  nth j (gibbs_weights b M reg beta i nt) 0
  = exp (- (item M i j - nth j beta 0) / reg) * nth j b 0.
Proof. intros Hj. unfold gibbs_weights. now rewrite nth_map_seq. Qed.

Lemma khi_of_nth g j :
  (j < length g)%nat -> nth j (khi_of g) 0 = nth j g 0 / np_sum g.
Proof. intros Hj. unfold khi_of. now rewrite nth_map_R. Qed.

(** The plan built from [beta] and its c-transform has the row [i] equal to
    [a[i] * khi], with [khi] the normalized Gibbs weights of row [i]. *)
Lemma semi_dual_finish_rows a b M reg beta log :
  length a = shape0 M -> length b = shape1 M -> (0 < shape1 M)%nat ->
  length beta = shape1 M ->
  reg <> 0 -> Forall (Rle 0) b -> 0 < np_sum b ->
  exists alpha pi,
    semi_dual_finish a b M reg beta log = Ok (plan_result log pi alpha beta)
    /\ shape0 pi = shape0 M /\ shape1 pi = shape1 M
    /\ forall i j, (i < shape0 M)%nat -> (j < shape1 M)%nat ->
         item pi i j
         = nth i a 0 * nth j (khi_of (gibbs_weights b M reg beta i (shape1 M))) 0.
Proof.
  intros Ha Hb Hnt Hbeta Hreg Hnn Hs.
  destruct (semi_dual_finish_ok a b M reg beta log Ha Hb Hnt Hbeta)
    as [alpha [pi [Ec [Ef (S0 & S1 & Hp)]]]].
  destruct (c_transform_entropic_entries b M reg beta (shape1 M) Hb eq_refl Hbeta Hnt)
    as [alpha' [Ec' [_ Hi]]].
  assert (alpha' = alpha) by congruence. subst alpha'.
  exists alpha, pi. split; [exact Ef|]. split; [exact S0|]. split; [exact S1|].
  intros i j Hlt Hj. rewrite (Hp i j Hlt Hj), (Hi i Hlt).
  pose proof (gibbs_weights_sum_pos b M reg beta i (shape1 M) Hb Hnn Hs) as Hpos.
  unfold c_transform_entry. rewrite log_sum_exp_shift by assumption.
  rewrite khi_of_nth by (now rewrite gibbs_weights_length).
  rewrite gibbs_weights_nth by assumption.
  set (S := np_sum (gibbs_weights b M reg beta i (shape1 M))) in *.
  replace ((- reg * ln S + nth j beta 0 - item M i j) / reg)
    with (- ln S + - (item M i j - nth j beta 0) / reg) by (field; assumption).
  rewrite exp_plus, exp_Ropp, exp_ln by assumption.
  field. lra.
Qed.



Lemma solve_semi_dual_entropic_run {G : RandomState}
    a b M reg method numItermax lr log (w : world G) :
  length a = shape0 M -> length b = shape1 M -> (0 < shape0 M)%nat ->
  In method (casings "sag") \/ In method (casings "asgd") ->
  exists beta w',
    length beta = shape1 M
    /\ solve_semi_dual_entropic a b M reg method numItermax lr log w
       = (semi_dual_finish a b M reg beta log, w').
Proof.
  intros Ha Hb Hns [Hm|Hm]; apply casings_lower in Hm.
  - change (lower method = "sag"%string) in Hm.
    destruct (sag_returns a b M reg numItermax lr w Ha Hb Hns) as [beta [w' [E Hl]]].
    exists beta, w'. split; [exact Hl|].
    unfold solve_semi_dual_entropic. rewrite Hm, String.eqb_refl.
    now rewrite (bind_ok _ _ _ _ _ E).
  - change (lower method = "asgd"%string) in Hm.
    destruct (asgd_returns a b M reg numItermax lr w Ha Hb Hns) as [beta [w' [E Hl]]].
    exists beta, w'. split; [exact Hl|].
    unfold solve_semi_dual_entropic. rewrite Hm.
    change (String.eqb "asgd" "sag") with false. rewrite String.eqb_refl.
    cbv iota. now rewrite (bind_ok _ _ _ _ _ E).
Qed.

(** The plan returned by the semi-dual orchestrator has the first marginal
    exactly: in exact arithmetic the row [i] of the plan sums to [a[i]],
    whatever the number of iterations and the indices drawn. *)
Theorem solve_semi_dual_entropic_row_sums {G : RandomState}
    (a b : array) (M : ndarray2) (reg : R) (method : string)
    (numItermax : nat) (lr : option R) (log : bool) (w : world G) :
  length a = shape0 M -> length b = shape1 M ->
  (0 < shape0 M)%nat -> (0 < shape1 M)%nat ->
  reg <> 0 -> Forall (Rle 0) b -> 0 < np_sum b ->
  In method (casings "sag") \/ In method (casings "asgd") ->
  exists r pi w',
    solve_semi_dual_entropic a b M reg method numItermax lr log w = (Ok r, w')
    /\ drop_log r = RPlan pi
    /\ shape0 pi = shape0 M /\ shape1 pi = shape1 M
    /\ forall i, (i < shape0 M)%nat ->
         np_sum (map (item pi i) (seq 0 (shape1 M))) = nth i a 0.
Proof.
  intros Ha Hb Hns Hnt Hreg Hnn Hs Hm.
  destruct (solve_semi_dual_entropic_run a b M reg method numItermax lr log w
              Ha Hb Hns Hm) as [beta [w' [Hl E]]].
  destruct (semi_dual_finish_rows a b M reg beta log Ha Hb Hnt Hl Hreg Hnn Hs)
    as [alpha [pi [Ef [S0 [S1 Hp]]]]].
  exists (plan_result log pi alpha beta), pi, w'.
  split; [now rewrite E, Ef|]. split; [now destruct log|].
  split; [exact S0|]. split; [exact S1|].
  intros i Hi.
  pose proof (gibbs_weights_sum_pos b M reg beta i (shape1 M) Hb Hnn Hs) as Hpos.
  assert (Emap : map (item pi i) (seq 0 (shape1 M))
                 = np_muls (nth i a 0)
                     (khi_of (gibbs_weights b M reg beta i (shape1 M)))).
  { apply list_eq_nth.
    - rewrite np_muls_length, khi_of_length, gibbs_weights_length.
      now rewrite length_map, length_seq.
    - intros j Hj. rewrite length_map, length_seq in Hj.
      rewrite nth_map_seq by assumption. unfold np_muls.
      rewrite nth_map_R by (now rewrite khi_of_length, gibbs_weights_length).
      now apply Hp. }
  rewrite Emap, np_sum_muls, khi_of_sum by lra. ring.
Qed.

Lemma solve_semi_dual_entropic_row_sums_witness :
  exists r pi w',
    solve_semi_dual_entropic ex_weights ex_weights ex_cost 1 "ASGD" 3 None false
      ex_world = (Ok r, w')
    /\ drop_log r = RPlan pi
    /\ shape0 pi = shape0 ex_cost /\ shape1 pi = shape1 ex_cost
    /\ forall i, (i < shape0 ex_cost)%nat ->
         np_sum (map (item pi i) (seq 0 (shape1 ex_cost))) = nth i ex_weights 0.
Proof.
  apply (solve_semi_dual_entropic_row_sums
           ex_weights ex_weights ex_cost 1 "ASGD" 3 None false ex_world);
    try reflexivity; try (simpl; lia).
  - lra.
  - unfold ex_weights. repeat constructor; lra.
  - unfold ex_weights, np_sum. simpl. lra.
  - right. simpl. tauto.
Defined.

Lemma is_gibbs_plan_nonneg a b M reg alpha beta pi :
  Forall (Rle 0) a -> Forall (Rle 0) b -> is_gibbs_plan a b M reg alpha beta pi ->
  forall i j, (i < shape0 M)%nat -> (j < shape1 M)%nat -> 0 <= item pi i j.
Proof.
  intros Ha Hb (_ & _ & Hp) i j Hi Hj. rewrite (Hp i j Hi Hj).
  apply Rmult_le_pos; [apply Rmult_le_pos|now apply nth_nonneg].
  - left. apply exp_pos.
  - now apply nth_nonneg.
Qed.

(** For non-negative weights [a] and [b] both orchestrators return a plan
    of the shape of [M] without a negative entry. *)
Theorem orchestrators_plan_nonnegative {G : RandomState}
    (a b : array) (M : ndarray2) (reg : R) (method : string)
    (numItermax batch_size : nat) (lr : option R) (lr_dual : R) (log : bool)
    (w : world G) :
  length a = shape0 M -> length b = shape1 M ->
  (0 < shape0 M)%nat -> (0 < shape1 M)%nat ->
  (batch_size <= shape0 M)%nat -> (batch_size <= shape1 M)%nat ->
  Forall (Rle 0) a -> Forall (Rle 0) b ->
  In method (casings "sag") \/ In method (casings "asgd") ->
  (exists r pi w',
     solve_semi_dual_entropic a b M reg method numItermax lr log w = (Ok r, w')
     /\ drop_log r = RPlan pi
     /\ shape0 pi = shape0 M /\ shape1 pi = shape1 M
     /\ forall i j, (i < shape0 M)%nat -> (j < shape1 M)%nat -> 0 <= item pi i j)
  /\ (exists r pi w',
        solve_dual_entropic a b M reg batch_size numItermax lr_dual log w = (Ok r, w')
        /\ drop_log r = RPlan pi
        /\ shape0 pi = shape0 M /\ shape1 pi = shape1 M
        /\ forall i j, (i < shape0 M)%nat -> (j < shape1 M)%nat -> 0 <= item pi i j).
Proof.
  intros Ha Hb Hns Hnt Hbs Hbt Hna Hnb Hm. split.
  - destruct (solve_semi_dual_entropic_run a b M reg method numItermax lr log w
                Ha Hb Hns Hm) as [beta [w' [Hl E]]].
    destruct (semi_dual_finish_ok a b M reg beta log Ha Hb Hnt Hl)
      as [alpha [pi [_ [Ef Hp]]]].
    exists (plan_result log pi alpha beta), pi, w'.
    split; [now rewrite E, Ef|]. split; [now destruct log|].
    split; [apply Hp|]. split; [apply Hp|].
    now apply (is_gibbs_plan_nonneg a b M reg alpha beta).
  - destruct (sgd_returns M reg batch_size numItermax lr_dual true w Hns Hnt Hbs Hbt)
      as [alpha [beta [w' [E [Hla Hlb]]]]].
    destruct (gibbs_plan_ok a b M reg alpha beta log Hla Hlb Ha Hb) as [pi [Ep Hp]].
    exists (plan_result log pi alpha beta), pi, w'.
    split.
    + unfold solve_dual_entropic. rewrite (bind_ok _ _ _ _ _ E).
      cbv beta zeta. cbn [fst snd]. unfold lift.
      exact (f_equal (fun r => (r, w')) Ep).
    + split; [now destruct log|]. split; [apply Hp|]. split; [apply Hp|].
      now apply (is_gibbs_plan_nonneg a b M reg alpha beta).
Qed.

Lemma orchestrators_plan_nonnegative_witness :
  (exists r pi w',
     solve_semi_dual_entropic ex_weights ex_weights ex_cost 1 "sag" 2 None true
       ex_world = (Ok r, w')
     /\ drop_log r = RPlan pi
     /\ shape0 pi = shape0 ex_cost /\ shape1 pi = shape1 ex_cost
     /\ forall i j, (i < shape0 ex_cost)%nat -> (j < shape1 ex_cost)%nat ->
          0 <= item pi i j)
  /\ (exists r pi w',
        solve_dual_entropic ex_weights ex_weights ex_cost 1 1 2 1 true ex_world
        = (Ok r, w')
        /\ drop_log r = RPlan pi
        /\ shape0 pi = shape0 ex_cost /\ shape1 pi = shape1 ex_cost
        /\ forall i j, (i < shape0 ex_cost)%nat -> (j < shape1 ex_cost)%nat ->
             0 <= item pi i j).
Proof.
  apply (orchestrators_plan_nonnegative
           ex_weights ex_weights ex_cost 1 "sag" 2 1 None 1 true ex_world);
    try reflexivity; try (simpl; lia).
  - unfold ex_weights. repeat constructor; lra.
  - unfold ex_weights. repeat constructor; lra.
  - left. simpl. tauto.
Defined.

Lemma semi_dual_finish_drop_log a b M reg beta :
  semi_dual_finish a b M reg beta false
  = rmap drop_log (semi_dual_finish a b M reg beta true).
Proof.
  unfold semi_dual_finish.
  destruct (c_transform_entropic b M reg beta) as [alpha|e]; [|reflexivity].
  cbn [rbind].
  destruct (np_binop2 Rplus (as_column alpha) (as_row beta)) as [s|e]; [|reflexivity].
  cbn [rbind].
  destruct (np_binop2 Rminus s M) as [d|e]; [|reflexivity].
  cbn [rbind].
  destruct (np_binop2 Rmult (np_map2d exp (np_map2d (fun u => u / reg) d))
              (as_column a)) as [p|e]; [|reflexivity].
  cbn [rbind].
  destruct (np_binop2 Rmult p (as_row b)) as [pi|e]; reflexivity.
Qed.

(** The [log] flag changes nothing but the presence of the dictionary: for
    every input, also an ill-shaped one, the call without [log] returns the
    plan of the call with [log] (or raises the same exception, or returns
    the same [None]) and leaves the generator and the output in the same
    state. *)
Theorem orchestrators_log_flag {G : RandomState}
    (a b : array) (M : ndarray2) (reg : R) (method : string)
    (numItermax batch_size : nat) (lr : option R) (lr_dual : R) (w : world G) :
  solve_semi_dual_entropic a b M reg method numItermax lr false w
  = (rmap drop_log
       (fst (solve_semi_dual_entropic a b M reg method numItermax lr true w)),
     snd (solve_semi_dual_entropic a b M reg method numItermax lr true w))
  /\ solve_dual_entropic a b M reg batch_size numItermax lr_dual false w
     = (rmap drop_log
          (fst (solve_dual_entropic a b M reg batch_size numItermax lr_dual true w)),
        snd (solve_dual_entropic a b M reg batch_size numItermax lr_dual true w)).
Proof.
  split.
  - unfold solve_semi_dual_entropic.
    destruct (String.eqb (lower method) "sag").
    + unfold bind.
      destruct (sag_entropic_transport a b M reg numItermax lr w) as [[beta|e] w'];
        [|reflexivity].
      unfold lift. cbn [fst snd]. now rewrite semi_dual_finish_drop_log.
    + destruct (String.eqb (lower method) "asgd").
      * unfold bind.
        destruct (averaged_sgd_entropic_transport a b M reg numItermax lr w)
          as [[beta|e] w']; [|reflexivity].
        unfold lift. cbn [fst snd]. now rewrite semi_dual_finish_drop_log.
      * reflexivity.
  - unfold solve_dual_entropic, bind.
    destruct (sgd_entropic_regularization M reg batch_size numItermax lr_dual true w)
      as [[[alpha beta]|e] w']; [|reflexivity].
    cbv beta zeta. cbn [fst snd]. unfold lift.
    destruct (np_binop2 Rplus (as_column alpha) (as_row beta)) as [s|e]; [|reflexivity].
    cbn [rbind].
    destruct (np_binop2 Rminus s M) as [d|e]; [|reflexivity].
    cbn [rbind].
    destruct (np_binop2 Rmult (np_map2d exp (np_map2d (fun u => u / reg) d))
                (as_column a)) as [p|e]; [|reflexivity].
    cbn [rbind].
    destruct (np_binop2 Rmult p (as_row b)) as [pi|e]; reflexivity.
Qed.

(* ===================================================================== *)
(** ** Further properties of the batch gradients and of the dual solver *)
(* ===================================================================== *)







Lemma add_at_spec_other v idx w q :
  ~ In q idx -> nth q (add_at_spec v idx w) 0 = nth q v 0.
Proof.
  intros Hq. destruct (Nat.lt_ge_cases q (length v)) as [Hlt|Hge].
  - unfold add_at_spec. rewrite nth_map_seq by assumption.
    now rewrite index_of_None.
  - rewrite !nth_overflow; [reflexivity|assumption|].
    now rewrite add_at_spec_length.
Qed.

Lemma dual_spec_run_untouched alternate M reg bs lr batches q :
  forall k alpha beta,
  (Forall (fun p => ~ In q (fst p)) batches ->
   nth q (fst (dual_spec_run alternate M reg bs lr k batches (alpha, beta))) 0
   = nth q alpha 0)
  /\ (Forall (fun p => ~ In q (snd p)) batches ->
      nth q (snd (dual_spec_run alternate M reg bs lr k batches (alpha, beta))) 0
      = nth q beta 0).
Proof.
  induction batches as [|[ba bb] rest IH]; intros k alpha beta;
    cbn [dual_spec_run]; [now split|].
  destruct (dual_spec_step alternate M reg bs lr k (alpha, beta) (ba, bb))
    as [alpha' beta'] eqn:E.
  assert (Ea : ~ In q ba -> nth q alpha' 0 = nth q alpha 0).
  { intros Hq. pose proof (f_equal fst E) as E1. cbn [fst] in E1. rewrite <- E1.
    destruct alternate; cbn [dual_spec_step fst]; now apply add_at_spec_other. }
  assert (Eb : ~ In q bb -> nth q beta' 0 = nth q beta 0).
  { intros Hq. pose proof (f_equal snd E) as E1. cbn [snd] in E1. rewrite <- E1.
    destruct alternate; cbn [dual_spec_step snd]; now apply add_at_spec_other. }
  destruct (IH (S k) alpha' beta') as [IHa IHb]. split.
  - intros H. inversion H as [|? ? Hq Hrest]; subst. cbn [fst] in Hq.
    rewrite (IHa Hrest). now apply Ea.
  - intros H. inversion H as [|? ? Hq Hrest]; subst. cbn [snd] in Hq.
    rewrite (IHb Hrest). now apply Eb.
Qed.

(** The dual solver only moves the entries it draws: an entry of [alpha]
    whose index is in no batch of source indices keeps the value of the
    initial [randn] draw, and likewise for [beta]. *)
Theorem sgd_entropic_regularization_untouched {G : RandomState}
    (M : ndarray2) (reg : R) (batch_size numItermax : nat) (lr : R)
    (alternate : bool) (w : world G) :
  (0 < shape0 M)%nat -> (0 < shape1 M)%nat ->
  (batch_size <= shape0 M)%nat -> (batch_size <= shape1 M)%nat ->
  let a0 := randn G (shape0 M) (gen w) in
  let b0 := randn G (shape1 M) (snd a0) in
  let batches := choice_trace G (shape0 M) (shape1 M) batch_size numItermax (snd b0) in
  exists alpha beta w',
    sgd_entropic_regularization M reg batch_size numItermax lr alternate w
    = (Ok (alpha, beta), w')
    /\ (forall q, Forall (fun p => ~ In q (fst p)) batches ->
          nth q alpha 0 = nth q (fst a0) 0)
    /\ (forall q, Forall (fun p => ~ In q (snd p)) batches ->
          nth q beta 0 = nth q (fst b0) 0).
Proof.
  intros Hns Hnt Hbs Hbt a0 b0 batches.
  pose proof (sgd_entropic_regularization_eq M reg batch_size numItermax lr alternate w
                Hns Hnt Hbs Hbt) as E. cbv zeta in E. fold a0 b0 batches in E.
  eexists _, _, _. split; [|split].
  - rewrite E. rewrite <- surjective_pairing. reflexivity.
  - intros q Hq.
    now apply (dual_spec_run_untouched alternate M reg batch_size lr batches q 1%nat).
  - intros q Hq.
    now apply (dual_spec_run_untouched alternate M reg batch_size lr batches q 1%nat).
Qed.

Lemma sgd_entropic_regularization_untouched_witness :
  let a0 := randn counter_rng (shape0 ex_cost) (gen ex_world) in
  let b0 := randn counter_rng (shape1 ex_cost) (snd a0) in
  let batches := choice_trace counter_rng (shape0 ex_cost) (shape1 ex_cost) 1 2 (snd b0) in
  exists alpha beta w',
    sgd_entropic_regularization ex_cost 1 1 2 1 false ex_world
    = (Ok (alpha, beta), w')
    /\ (forall q, Forall (fun p => ~ In q (fst p)) batches ->
          nth q alpha 0 = nth q (fst a0) 0)
    /\ (forall q, Forall (fun p => ~ In q (snd p)) batches ->
          nth q beta 0 = nth q (fst b0) 0).
Proof.
  apply (sgd_entropic_regularization_untouched ex_cost 1 1 2 1 false ex_world);
    simpl; lia.
Defined.

Lemma bind_raise {G : RandomState} {A B : Type} (c : Py G A) (k : A -> Py G B) w e :
  fst (c w) = Raise e -> fst (bind c k w) = Raise e.
Proof.
  intros H. unfold bind. destruct (c w) as [[x|e'] w']; simpl in *; congruence.
Qed.

Lemma sgd_body_too_large {G : RandomState} (alternate : bool) M reg bs lr ns nt k st
    (w : world G) :
  (ns < bs)%nat \/ (nt < bs)%nat ->
  fst ((if alternate then sgd_body_alternate M reg bs lr ns nt
        else sgd_body_joint M reg bs lr ns nt) k st w) = Raise ValueError.
Proof.
  intros Hbig.
  assert (Hc : forall f : list nat -> list nat -> Py G sgd_state,
            fst (bind (np_random_choice ns bs)
                   (fun ba => bind (np_random_choice nt bs) (fun bb => f ba bb)) w)
            = Raise ValueError).
  { intros f. unfold bind at 1. unfold np_random_choice at 1.
    destruct ((ns =? 0)%nat || (ns <? bs)%nat) eqn:E0; [reflexivity|].
    apply orb_false_iff in E0. destruct E0 as [_ E0]. apply Nat.ltb_ge in E0.
    destruct (choice G ns bs (gen w)) as [ba g'].
    apply bind_raise. unfold np_random_choice.
    destruct Hbig as [Hbig|Hbig]; [lia|].
    apply Nat.ltb_lt in Hbig. rewrite Hbig, orb_true_r. reflexivity. }
  destruct alternate.
  - unfold sgd_body_alternate. cbv zeta. apply Hc.
  - unfold sgd_body_joint. cbv zeta. apply Hc.
Qed.

(** The batch size is checked by [choice] only: when it exceeds the number
    of sources or of targets and there is at least one iteration the solver
    raises [ValueError]; with no iteration it returns the two initial draws
    whatever the batch size. *)
Theorem sgd_entropic_regularization_batch_too_large {G : RandomState}
    (M : ndarray2) (reg : R) (batch_size numItermax : nat) (lr : R)
    (alternate : bool) (w : world G) :
  (shape0 M < batch_size)%nat \/ (shape1 M < batch_size)%nat ->
  ((0 < numItermax)%nat ->
   fst (sgd_entropic_regularization M reg batch_size numItermax lr alternate w)
   = Raise ValueError)
  /\ fst (sgd_entropic_regularization M reg batch_size 0 lr alternate w)
     = Ok (fst (randn G (shape0 M) (gen w)),
           fst (randn G (shape1 M) (snd (randn G (shape0 M) (gen w))))).
Proof.
  intros Hbig. split.
  - intros Hn. destruct numItermax as [|n]; [lia|].
    unfold sgd_entropic_regularization, np_random_randn.
    unfold bind at 1. cbn [gen stdout].
    destruct (randn G (shape0 M) (gen w)) as [alpha0 g1].
    unfold bind at 1. cbn [gen stdout].
    destruct (randn G (shape1 M) g1) as [beta0 g2].
    apply bind_raise.
    destruct alternate; cbn [for_range]; apply bind_raise.
    + apply (sgd_body_too_large true M reg batch_size lr (shape0 M) (shape1 M)).
      exact Hbig.
    + apply (sgd_body_too_large false M reg batch_size lr (shape0 M) (shape1 M)).
      exact Hbig.
  - unfold sgd_entropic_regularization, np_random_randn, bind. cbn [gen stdout].
    destruct (randn G (shape0 M) (gen w)) as [alpha0 g1]. cbn [gen stdout fst snd].
    destruct (randn G (shape1 M) g1) as [beta0 g2].
    destruct alternate; reflexivity.
Qed.

Lemma sgd_entropic_regularization_batch_too_large_witness :
  fst (sgd_entropic_regularization ex_cost 1 3 5 1 true ex_world) = Raise ValueError
  /\ fst (sgd_entropic_regularization ex_cost 1 3 0 1 true ex_world)
     = Ok (fst (randn counter_rng (shape0 ex_cost) (gen ex_world)),
           fst (randn counter_rng (shape1 ex_cost)
                  (snd (randn counter_rng (shape0 ex_cost) (gen ex_world))))).
Proof.
  destruct (sgd_entropic_regularization_batch_too_large
              ex_cost 1 3 5 1 true ex_world) as [H1 _]; [simpl; lia|].
  destruct (sgd_entropic_regularization_batch_too_large
              ex_cost 1 3 0 1 true ex_world) as [_ H2]; [simpl; lia|].
  split; [apply H1; lia|exact H2].
Defined.

(** One iteration from the same state and generator gives the same [alpha]
    and leaves the same generator state whether [alternate] is set or not. *)
Theorem sgd_iteration_alternate_same_alpha {G : RandomState}
    (M : ndarray2) (reg : R) (batch_size : nat) (lr : R) (cur_iter : nat)
    (st : sgd_state) (w : world G) :
  (0 < shape0 M)%nat -> (0 < shape1 M)%nat ->
  (batch_size <= shape0 M)%nat -> (batch_size <= shape1 M)%nat ->
  length (sgd_cur_alpha st) = shape0 M -> length (sgd_cur_beta st) = shape1 M ->
  exists st1 st2 w',
    sgd_body_alternate M reg batch_size lr (shape0 M) (shape1 M) cur_iter st w
    = (Ok st1, w')
    /\ sgd_body_joint M reg batch_size lr (shape0 M) (shape1 M) cur_iter st w
       = (Ok st2, w')
    /\ sgd_cur_alpha st1 = sgd_cur_alpha st2.
Proof.
  intros Hns Hnt Hbs Hbt Hla Hlb.
  pose proof (sgd_body_ok true M reg batch_size lr (shape0 M) (shape1 M) cur_iter st w
                eq_refl eq_refl Hns Hnt Hbs Hbt Hla Hlb) as E1.
  pose proof (sgd_body_ok false M reg batch_size lr (shape0 M) (shape1 M) cur_iter st w
                eq_refl eq_refl Hns Hnt Hbs Hbt Hla Hlb) as E2.
  cbv zeta in E1, E2. cbv iota in E1, E2.
  eexists _, _, _. split; [exact E1|]. split; [exact E2|]. reflexivity.
Qed.

Lemma sgd_iteration_alternate_same_alpha_witness :
  exists st1 st2 w',
    sgd_body_alternate ex_cost 1 1 1 (shape0 ex_cost) (shape1 ex_cost) 0
      (mk_sgd_state [0; 0] [0; 0]) ex_world = (Ok st1, w')
    /\ sgd_body_joint ex_cost 1 1 1 (shape0 ex_cost) (shape1 ex_cost) 0
         (mk_sgd_state [0; 0] [0; 0]) ex_world = (Ok st2, w')
    /\ sgd_cur_alpha st1 = sgd_cur_alpha st2.
Proof.
  destruct (sgd_iteration_alternate_same_alpha ex_cost 1 1 1 0
              (mk_sgd_state [0; 0] [0; 0]) ex_world)
    as [st1 [st2 [w' [E1 [E2 Ea]]]]]; try reflexivity; try (simpl; lia).
  now exists st1, st2, w'.
Defined.


